(** * Integration configuration of the logs agent

    A shallow embedding of [pkg/config/integration_config.go]: discovery of
    the integration files, validation of the declared log sources and of
    their processing rules, construction of the tags payload, and
    publication of the validated sources in the settings store.

    Go strings are byte sequences and are modelled by [string]; [[]byte] is
    [list byte]; Go's [int] is [Z]; a nil [error] is [None]; a panic is the
    [Panic] outcome. *)

From Stdlib Require Import ZArith String Ascii.
From Stdlib.Strings Require Import Byte.
From stdpp Require Import base tactics option list strings gmap.

Local Open Scope string_scope.
Local Open Scope list_scope.

(** ** Go runtime conventions *)

(** An [error] value is identified with its message. *)
Definition error : Type := string.

(** A call either returns or panics. *)
Inductive outcome (A : Type) : Type :=
  | Return (a : A)
  | Panic.
Arguments Return {A} a.
Arguments Panic {A}.

Definition bind {A B : Type} (m : outcome A) (k : A -> outcome B) : outcome B :=
  match m with
  | Return a => k a
  | Panic => Panic
  end.

Notation "x <- m ;;; k" := (bind m (fun x => k))
  (at level 100, m at next level, right associativity, only parsing).

(** The conversion [[]byte(s)]. *)
Definition bytes (s : string) : list byte := list_byte_of_string s.

(** The one-character string holding a double quote (code 34). *)
Definition dquote : string := String (ascii_of_nat 34) EmptyString.

(** ** Constants of the package *)

Definition LOGS_RULES : string := "LogsRules".
Definition TCP_TYPE : string := "tcp".
Definition UDP_TYPE : string := "udp".
Definition FILE_TYPE : string := "file".
Definition EXCLUDE_AT_MATCH : string := "exclude_at_match".
Definition MASK_SEQUENCES : string := "mask_sequences".

(** ** buildTagsPayload *)

Definition buildTagsPayload (configTags source sourceCategory : string) : list byte :=
  let tagsPayload := [] in
  let tagsPayload :=
    if decide (source <> "")
    then ((tagsPayload ++ bytes ("[dd ddsource=" +:+ dquote)) ++ bytes source)
           ++ bytes (dquote +:+ "]")
    else tagsPayload in
  let tagsPayload :=
    if decide (sourceCategory <> "")
    then ((tagsPayload ++ bytes ("[dd ddsourcecategory=" +:+ dquote)) ++ bytes sourceCategory)
           ++ bytes (dquote +:+ "]")
    else tagsPayload in
  let tagsPayload :=
    if decide (configTags <> "")
    then ((tagsPayload ++ bytes ("[dd ddtags=" +:+ dquote)) ++ bytes configTags)
           ++ bytes (dquote +:+ "]")
    else tagsPayload in
  if decide (length tagsPayload = 0) then [byte_of_ascii "-"%char] else tagsPayload.

(** ** Library types and functions the package relies on *)

Module regexp.
(** A compiled expression [*regexp.Regexp], known here through its source
    text only (what [Regexp.String] gives back). *)
Record Regexp : Type := mkRegexp { expr : string }.
End regexp.

Module filepath.
(** [os.IsPathSeparator] on a Unix system. *)
Definition IsPathSeparator (c : ascii) : bool := Ascii.eqb c "/"%char.

(** The loop of [filepath.Ext]: [n] is one more than the index [i] that
    runs from [len(path) - 1] down to 0. *)
Fixpoint Ext_loop (path : string) (n : nat) : string :=
  match n with
  | O => ""
  | S i =>
      match String.get i path with
      | Some c =>
          if IsPathSeparator c then ""
          else if Ascii.eqb c "."%char
               then substring i (String.length path - i) path
               else Ext_loop path i
      | None => ""
      end
  end.

Definition Ext (path : string) : string := Ext_loop path (String.length path).
End filepath.

(** ** Data model *)

Module LogsProcessingRule.
Record t : Type := mk {
  Type_ : string;
  Name : string;
  ReplacePlaceholder : string;
  Pattern : string;
  Reg : option regexp.Regexp;
  ReplacePlaceholderBytes : list byte
}.

(** The assignment [r.Reg = v]. *)
Definition set_Reg (v : option regexp.Regexp) (r : t) : t :=
  mk (Type_ r) (Name r) (ReplacePlaceholder r) (Pattern r) v (ReplacePlaceholderBytes r).

(** The assignment [r.ReplacePlaceholderBytes = v]. *)
Definition set_ReplacePlaceholderBytes (v : list byte) (r : t) : t :=
  mk (Type_ r) (Name r) (ReplacePlaceholder r) (Pattern r) (Reg r) v.
End LogsProcessingRule.

Module IntegrationConfigLogSource.
Record t : Type := mk {
  Type_ : string;
  Port : Z;
  Path : string;
  Service : string;
  Logset : string;
  Source : string;
  SourceCategory : string;
  Tags : string;
  TagsPayload : list byte;
  ProcessingRules : list LogsProcessingRule.t
}.

Definition set_ProcessingRules (v : list LogsProcessingRule.t) (c : t) : t :=
  mk (Type_ c) (Port c) (Path c) (Service c) (Logset c) (Source c)
     (SourceCategory c) (Tags c) (TagsPayload c) v.

Definition set_TagsPayload (v : list byte) (c : t) : t :=
  mk (Type_ c) (Port c) (Path c) (Service c) (Logset c) (Source c)
     (SourceCategory c) (Tags c) v (ProcessingRules c).
End IntegrationConfigLogSource.

Record IntegrationConfig : Type := mkIntegrationConfig {
  Logs : list IntegrationConfigLogSource.t
}.

Module viper.
(** What the settings store holds under a key: the list of log sources,
    or a setting of some other shape. *)
Inductive Value : Type :=
  | Sources (l : list IntegrationConfigLogSource.t)
  | Other (v : string).

Abbreviation Viper := (gmap string Value).

(** Keys are taken as they are written: the folding of letter case that
    the library applies to keys is not modelled, and the store is observed
    below at the key [LOGS_RULES] only, or as a whole. *)
Definition Set_ (key : string) (value : Value) (config : Viper) : Viper :=
  <[key := value]> config.

Definition Get (key : string) (config : Viper) : option Value := config !! key.
End viper.

(** ** The environment of the package

    What the code reaches outside this file: a constant of the package
    declared elsewhere, the regular expression compiler, the directory
    listing and the configuration reader. *)
Class Env : Type := {
  (** the package constant naming the deprecated configuration file *)
  DeprecatedConfig : string;
  (** [regexp.Compile] *)
  Compile : string -> regexp.Regexp + error;
  (** [ioutil.ReadDir], giving the entry names; on failure it returns a nil
      list together with the error *)
  ReadDir : string -> list string + error;
  (** the content read by [ReadInConfig] for a config path and a config name *)
  RawConfig : Type;
  ReadInConfig : string -> string -> RawConfig + error;
  (** [Unmarshal] into an [IntegrationConfig] *)
  Unmarshal : RawConfig -> IntegrationConfig + error
}.

(** [regexp.MustCompile] panics where [regexp.Compile] fails. *)
Definition MustCompile `{Env} (str : string) : outcome regexp.Regexp :=
  match Compile str with
  | inl re => Return re
  | inr _ => Panic
  end.

(** ** getLogsSources *)

Definition getLogsSources (config : viper.Viper) : outcome (list IntegrationConfigLogSource.t) :=
  match viper.Get LOGS_RULES config with
  | Some (viper.Sources l) => Return l
  | _ => Panic
  end.

(** ** availableIntegrationConfigs *)

(** The entries bound by [files, _ := ioutil.ReadDir(ddconfdPath)]: the error
    is dropped, and the list is nil when the listing failed. *)
Definition listing `{Env} (ddconfdPath : string) : list string :=
  match ReadDir ddconfdPath with
  | inl files => files
  | inr _ => []
  end.

Definition availableIntegrationConfigs `{Env} (ddconfdPath : string) : list string :=
  let files := listing ddconfdPath in
  foldl (fun integrationConfigFiles filename =>
           let extension := filepath.Ext filename in
           let name := substring 0 (String.length filename - String.length extension) filename in
           if decide (extension = ".yaml" /\ name <> DeprecatedConfig)
           then integrationConfigFiles ++ [name]
           else integrationConfigFiles)
        [] files.

(** ** validateSource *)

Definition validateSource (config : IntegrationConfigLogSource.t) : option error :=
  let type := IntegrationConfigLogSource.Type_ config in
  if decide (type = FILE_TYPE \/ type = TCP_TYPE \/ type = UDP_TYPE) then
    if decide (type = FILE_TYPE /\ IntegrationConfigLogSource.Path config = "")
    then Some "A file source must have a path"
    else if decide (type = TCP_TYPE /\ IntegrationConfigLogSource.Port config = 0%Z)
    then Some "A tcp source must have a port"
    else if decide (type = UDP_TYPE /\ IntegrationConfigLogSource.Port config = 0%Z)
    then Some "A udp source must have a port"
    else None
  else Some ("A source must have a valid type (got " +:+ type +:+ ")").

(** ** validateProcessingRules *)

Definition errNameMissing : error :=
  "LogsAgent misconfigured: all log processing rules need a name".

Definition errTypeMissing (name : string) : error :=
  "LogsAgent misconfigured: type must be set for log processing rule `" +:+ name +:+ "`".

Definition errTypeUnsupported (type name : string) : error :=
  "LogsAgent misconfigured: type " +:+ type
    +:+ " is unsupported for log processing rule `" +:+ name +:+ "`".

(** The [range] loop over [rules]: [i] is the index of the current rule,
    [n] the number of rules still to visit. The assignments to [rules[i]]
    update the slice in place; the updated slice is what is returned. *)
Fixpoint validateProcessingRules_loop `{Env} (n i : nat) (rules : list LogsProcessingRule.t)
  : outcome (list LogsProcessingRule.t * option error) :=
  match n with
  | O => Return (rules, None)
  | S n' =>
      match rules !! i with
      | None => Return (rules, None)
      | Some rule =>
          if decide (LogsProcessingRule.Name rule = "")
          then Return ([], Some errNameMissing)
          else if decide (LogsProcessingRule.Type_ rule = EXCLUDE_AT_MATCH) then
            re <- MustCompile (LogsProcessingRule.Pattern rule) ;;;
            let rules := alter (LogsProcessingRule.set_Reg (Some re)) i rules in
            validateProcessingRules_loop n' (S i) rules
          else if decide (LogsProcessingRule.Type_ rule = MASK_SEQUENCES) then
            re <- MustCompile (LogsProcessingRule.Pattern rule) ;;;
            let rules := alter (LogsProcessingRule.set_Reg (Some re)) i rules in
            let rules :=
              alter (LogsProcessingRule.set_ReplacePlaceholderBytes
                       (bytes (LogsProcessingRule.ReplacePlaceholder rule))) i rules in
            validateProcessingRules_loop n' (S i) rules
          else if decide (LogsProcessingRule.Type_ rule = "")
          then Return ([], Some (errTypeMissing (LogsProcessingRule.Name rule)))
          else Return ([], Some (errTypeUnsupported (LogsProcessingRule.Type_ rule)
                                                    (LogsProcessingRule.Name rule)))
      end
  end.

Definition validateProcessingRules `{Env} (rules : list LogsProcessingRule.t)
  : outcome (list LogsProcessingRule.t * option error) :=
  validateProcessingRules_loop (length rules) 0 rules.

(** ** buildLogsAgentIntegrationsConfig *)

(** The inner loop, over the sources of one file; [logsSourceConfigs] is the
    list built so far. *)
Fixpoint sources_loop `{Env} (logs : list IntegrationConfigLogSource.t)
    (logsSourceConfigs : list IntegrationConfigLogSource.t)
  : outcome (list IntegrationConfigLogSource.t * option error) :=
  match logs with
  | [] => Return (logsSourceConfigs, None)
  | logSourceConfigIterator :: logs' =>
      let logSourceConfig := logSourceConfigIterator in
      match validateSource logSourceConfig with
      | Some err => Return (logsSourceConfigs, Some err)
      | None =>
          r <- validateProcessingRules
                 (IntegrationConfigLogSource.ProcessingRules logSourceConfig) ;;;
          match r with
          | (_, Some err) => Return (logsSourceConfigs, Some err)
          | (rules, None) =>
              let logSourceConfig :=
                IntegrationConfigLogSource.set_ProcessingRules rules logSourceConfig in
              let logSourceConfig :=
                IntegrationConfigLogSource.set_TagsPayload
                  (buildTagsPayload (IntegrationConfigLogSource.Tags logSourceConfig)
                                    (IntegrationConfigLogSource.Source logSourceConfig)
                                    (IntegrationConfigLogSource.SourceCategory logSourceConfig))
                  logSourceConfig in
              sources_loop logs' (logsSourceConfigs ++ [logSourceConfig])
          end
      end
  end.

(** The outer loop, over the discovered file names. *)
Fixpoint files_loop `{Env} (ddconfdPath : string) (files : list string)
    (logsSourceConfigs : list IntegrationConfigLogSource.t)
  : outcome (list IntegrationConfigLogSource.t * option error) :=
  match files with
  | [] => Return (logsSourceConfigs, None)
  | file :: files' =>
      match ReadInConfig ddconfdPath file with
      | inr err => Return (logsSourceConfigs, Some err)
      | inl raw =>
          match Unmarshal raw with
          | inr err => Return (logsSourceConfigs, Some err)
          | inl integrationConfig =>
              r <- sources_loop (Logs integrationConfig) logsSourceConfigs ;;;
              match r with
              | (logsSourceConfigs, Some err) => Return (logsSourceConfigs, Some err)
              | (logsSourceConfigs, None) => files_loop ddconfdPath files' logsSourceConfigs
              end
          end
      end
  end.

(** The call returns the settings store as it leaves it, with the error. *)
Definition buildLogsAgentIntegrationsConfig `{Env} (config : viper.Viper) (ddconfdPath : string)
  : outcome (viper.Viper * option error) :=
  let integrationConfigYamlFiles := availableIntegrationConfigs ddconfdPath in
  r <- files_loop ddconfdPath integrationConfigYamlFiles [] ;;;
  match r with
  | (_, Some err) => Return (config, Some err)
  | (logsSourceConfigs, None) =>
      Return (viper.Set_ LOGS_RULES (viper.Sources logsSourceConfigs) config, None)
  end.

(** ** The exported functions

    [LogsAgent], the settings store of the agent, is a variable of the
    package declared in another file; the exported functions work on it. Its
    content is passed explicitly. *)

Definition GetLogsSources (LogsAgent : viper.Viper)
  : outcome (list IntegrationConfigLogSource.t) :=
  getLogsSources LogsAgent.

Definition BuildLogsAgentIntegrationsConfigs `{Env} (LogsAgent : viper.Viper)
    (ddconfdPath : string) : outcome (viper.Viper * option error) :=
  buildLogsAgentIntegrationsConfig LogsAgent ddconfdPath.

(** ** Specification-level definitions

    The properties below are stated against these: what the payload, one
    rule, one source and one file are expected to give, read off the
    behaviour the loops are meant to have. *)

(** The payload as the concatenation of the three optional annotations. *)
Definition tagsPayload_spec (tags source sourceCategory : string) : list byte :=
  if decide (source = "" /\ sourceCategory = "" /\ tags = "")
  then [byte_of_ascii "-"%char]
  else bytes ((if decide (source = "") then ""
               else "[dd ddsource=" +:+ dquote +:+ source +:+ dquote +:+ "]")
              +:+ (if decide (sourceCategory = "") then ""
                   else "[dd ddsourcecategory=" +:+ dquote +:+ sourceCategory +:+ dquote +:+ "]")
              +:+ (if decide (tags = "") then ""
                   else "[dd ddtags=" +:+ dquote +:+ tags +:+ dquote +:+ "]")).

(** A source breaks the invariants of the data model. *)
Definition invalidSource (config : IntegrationConfigLogSource.t) : Prop :=
  let type := IntegrationConfigLogSource.Type_ config in
  ~ (type = FILE_TYPE \/ type = TCP_TYPE \/ type = UDP_TYPE)
  \/ (type = FILE_TYPE /\ IntegrationConfigLogSource.Path config = "")
  \/ ((type = TCP_TYPE \/ type = UDP_TYPE) /\ IntegrationConfigLogSource.Port config = 0%Z).

(** The name of a file entry without its extension. *)
Definition stripExt (filename : string) : string :=
  substring 0 (String.length filename - String.length (filepath.Ext filename)) filename.

(** An entry is an integration file to load. *)
Definition candidate `{Env} (filename : string) : Prop :=
  filepath.Ext filename = ".yaml" /\ stripExt filename <> DeprecatedConfig.

Global Instance candidate_dec `{Env} (filename : string) : Decision (candidate filename).
Proof. unfold candidate. apply _. Defined.

(** A rule that passes every check of the loop. *)
Definition ruleAccepted `{Env} (rule : LogsProcessingRule.t) : Prop :=
  LogsProcessingRule.Name rule <> ""
  /\ (LogsProcessingRule.Type_ rule = EXCLUDE_AT_MATCH
      \/ LogsProcessingRule.Type_ rule = MASK_SEQUENCES)
  /\ exists re, Compile (LogsProcessingRule.Pattern rule) = inl re.

(** A rule that fails the check of its name or the check of its type. *)
Definition ruleOffends (rule : LogsProcessingRule.t) : Prop :=
  LogsProcessingRule.Name rule = ""
  \/ (LogsProcessingRule.Type_ rule <> EXCLUDE_AT_MATCH
      /\ LogsProcessingRule.Type_ rule <> MASK_SEQUENCES).

(** What one iteration of the rule loop does with its rule: the rule as it
    is left in the slice, or the error returned. *)
Definition checkRule `{Env} (rule : LogsProcessingRule.t)
  : outcome (LogsProcessingRule.t + error) :=
  if decide (LogsProcessingRule.Name rule = "") then Return (inr errNameMissing)
  else if decide (LogsProcessingRule.Type_ rule = EXCLUDE_AT_MATCH) then
    re <- MustCompile (LogsProcessingRule.Pattern rule) ;;;
    Return (inl (LogsProcessingRule.set_Reg (Some re) rule))
  else if decide (LogsProcessingRule.Type_ rule = MASK_SEQUENCES) then
    re <- MustCompile (LogsProcessingRule.Pattern rule) ;;;
    Return (inl (LogsProcessingRule.set_ReplacePlaceholderBytes
                   (bytes (LogsProcessingRule.ReplacePlaceholder rule))
                   (LogsProcessingRule.set_Reg (Some re) rule)))
  else if decide (LogsProcessingRule.Type_ rule = "")
  then Return (inr (errTypeMissing (LogsProcessingRule.Name rule)))
  else Return (inr (errTypeUnsupported (LogsProcessingRule.Type_ rule)
                                       (LogsProcessingRule.Name rule))).

(** The rules one after the other, stopping at the first error or panic. *)
Fixpoint checkRules `{Env} (rules : list LogsProcessingRule.t)
  : outcome (list LogsProcessingRule.t + error) :=
  match rules with
  | [] => Return (inl [])
  | rule :: rules' =>
      r <- checkRule rule ;;;
      match r with
      | inr err => Return (inr err)
      | inl rule' =>
          rs <- checkRules rules' ;;;
          match rs with
          | inr err => Return (inr err)
          | inl rules'' => Return (inl (rule' :: rules''))
          end
      end
  end.

(** The frame of a validated rule: the declared fields are kept, and the
    placeholder bytes are written for masking rules only. *)
Definition ruleFrame (rule rule' : LogsProcessingRule.t) : Prop :=
  LogsProcessingRule.Type_ rule' = LogsProcessingRule.Type_ rule
  /\ LogsProcessingRule.Name rule' = LogsProcessingRule.Name rule
  /\ LogsProcessingRule.Pattern rule' = LogsProcessingRule.Pattern rule
  /\ LogsProcessingRule.ReplacePlaceholder rule' = LogsProcessingRule.ReplacePlaceholder rule
  /\ (LogsProcessingRule.Type_ rule = MASK_SEQUENCES ->
      LogsProcessingRule.ReplacePlaceholderBytes rule'
      = bytes (LogsProcessingRule.ReplacePlaceholder rule))
  /\ (LogsProcessingRule.Type_ rule <> MASK_SEQUENCES ->
      LogsProcessingRule.ReplacePlaceholderBytes rule'
      = LogsProcessingRule.ReplacePlaceholderBytes rule).

(** Reading and unmarshalling one file. *)
Definition parseFile `{Env} (ddconfdPath file : string) : IntegrationConfig + error :=
  match ReadInConfig ddconfdPath file with
  | inl raw => Unmarshal raw
  | inr err => inr err
  end.

(** [registered s s'] : the declared source [s] passes validation and [s']
    is what is stored for it. *)
Definition registered `{Env} (s s' : IntegrationConfigLogSource.t) : Prop :=
  validateSource s = None
  /\ exists rules,
       validateProcessingRules (IntegrationConfigLogSource.ProcessingRules s)
       = Return (rules, None)
       /\ s' = IntegrationConfigLogSource.set_TagsPayload
                 (buildTagsPayload (IntegrationConfigLogSource.Tags s)
                                   (IntegrationConfigLogSource.Source s)
                                   (IntegrationConfigLogSource.SourceCategory s))
                 (IntegrationConfigLogSource.set_ProcessingRules rules s).

(** The fields of a source that come from its declaration. *)
Definition declared (s : IntegrationConfigLogSource.t)
  : string * Z * string * string * string * string * string * string :=
  (IntegrationConfigLogSource.Type_ s, IntegrationConfigLogSource.Port s,
   IntegrationConfigLogSource.Path s, IntegrationConfigLogSource.Service s,
   IntegrationConfigLogSource.Logset s, IntegrationConfigLogSource.Source s,
   IntegrationConfigLogSource.SourceCategory s, IntegrationConfigLogSource.Tags s).

(** [sourceFails s e] : validating the source [s] returns the error [e]. *)
Definition sourceFails `{Env} (s : IntegrationConfigLogSource.t) (e : error) : Prop :=
  validateSource s = Some e
  \/ (validateSource s = None
      /\ exists rs, validateProcessingRules (IntegrationConfigLogSource.ProcessingRules s)
                    = Return (rs, Some e)).

(** [fileFails path file acc e] : loading [file] after the sources [acc]
    returns the error [e], from reading, from unmarshalling, or from the
    first source that fails after sources that all pass. *)
Definition fileFails `{Env} (ddconfdPath file : string)
    (acc : list IntegrationConfigLogSource.t) (e : error) : Prop :=
  parseFile ddconfdPath file = inr e
  \/ exists cfg before s after acc',
       parseFile ddconfdPath file = inl cfg
       /\ Logs cfg = before ++ s :: after
       /\ sources_loop before acc = Return (acc', None)
       /\ sourceFails s e.

(** [sourcePanics s] : the source [s] is valid and the validation of its
    rules panics. *)
Definition sourcePanics `{Env} (s : IntegrationConfigLogSource.t) : Prop :=
  validateSource s = None
  /\ validateProcessingRules (IntegrationConfigLogSource.ProcessingRules s) = Panic.

(** [filePanics path file acc] : loading [file] after the sources [acc]
    panics at a source that comes after sources that all pass. *)
Definition filePanics `{Env} (ddconfdPath file : string)
    (acc : list IntegrationConfigLogSource.t) : Prop :=
  exists cfg before s after acc',
    parseFile ddconfdPath file = inl cfg
    /\ Logs cfg = before ++ s :: after
    /\ sources_loop before acc = Return (acc', None)
    /\ sourcePanics s.

(** The annotation appended for a value under the opening text [opening],
    nothing for an empty value. *)
Definition tagsAnnotation (opening value : string) : string :=
  if decide (value = "") then ""
  else opening +:+ dquote +:+ value +:+ dquote +:+ "]".

(** The text of the payload before the check of its length. *)
Definition tagsText (tags source sourceCategory : string) : string :=
  tagsAnnotation "[dd ddsource=" source
  +:+ tagsAnnotation "[dd ddsourcecategory=" sourceCategory
  +:+ tagsAnnotation "[dd ddtags=" tags.

(** The type is one of the two kinds of rule. *)
Definition supportedType (rule : LogsProcessingRule.t) : Prop :=
  LogsProcessingRule.Type_ rule = EXCLUDE_AT_MATCH
  \/ LogsProcessingRule.Type_ rule = MASK_SEQUENCES.

(** A rule with a name and a supported type whose pattern does not
    compile. *)
Definition ruleMalformed `{Env} (rule : LogsProcessingRule.t) : Prop :=
  LogsProcessingRule.Name rule <> ""
  /\ supportedType rule
  /\ exists e, Compile (LogsProcessingRule.Pattern rule) = inr e.

(** The message for a rule that fails the check of its name or of its
    type. *)
Definition ruleError (rule : LogsProcessingRule.t) : error :=
  if decide (LogsProcessingRule.Name rule = "") then errNameMissing
  else if decide (LogsProcessingRule.Type_ rule = "")
       then errTypeMissing (LogsProcessingRule.Name rule)
       else errTypeUnsupported (LogsProcessingRule.Type_ rule)
                               (LogsProcessingRule.Name rule).

(** A rule as the validation leaves it: named, of a supported type, and
    holding the compiled form of its own pattern. *)
Definition ruleCompiled `{Env} (rule : LogsProcessingRule.t) : Prop :=
  LogsProcessingRule.Name rule <> ""
  /\ supportedType rule
  /\ exists re, LogsProcessingRule.Reg rule = Some re
                /\ Compile (LogsProcessingRule.Pattern rule) = inl re.

(** A source that passes the validation of the load. *)
Definition sourceAccepted `{Env} (s : IntegrationConfigLogSource.t) : Prop :=
  validateSource s = None
  /\ Forall ruleAccepted (IntegrationConfigLogSource.ProcessingRules s).

(** What holds of every source the load stores. *)
Definition storedInvariant `{Env} (s : IntegrationConfigLogSource.t) : Prop :=
  ~ invalidSource s
  /\ IntegrationConfigLogSource.TagsPayload s
     = buildTagsPayload (IntegrationConfigLogSource.Tags s)
                        (IntegrationConfigLogSource.Source s)
                        (IntegrationConfigLogSource.SourceCategory s)
  /\ IntegrationConfigLogSource.TagsPayload s <> []
  /\ Forall ruleCompiled (IntegrationConfigLogSource.ProcessingRules s).

(** ** A concrete environment

    A configuration directory with two integration files, a directory with
    a faulty file, and a compiler stand-in that rejects a pattern whose
    parentheses do not match. The properties are exercised on it. *)

Module Fixture.
Fixpoint balanced (depth : nat) (s : string) : bool :=
  match s with
  | EmptyString => Nat.eqb depth 0
  | String c s' =>
      if Ascii.eqb c "("%char then balanced (S depth) s'
      else if Ascii.eqb c ")"%char
           then match depth with O => false | S d => balanced d s' end
           else balanced depth s'
  end.

Definition compile (str : string) : regexp.Regexp + error :=
  if balanced 0 str then inl (regexp.mkRegexp str)
  else inr ("error parsing regexp: unmatched parenthesis: `" +:+ str +:+ "`").

Definition dropDebug : LogsProcessingRule.t :=
  LogsProcessingRule.mk EXCLUDE_AT_MATCH "drop_debug" "" "DEBUG" None [].
Definition maskCards : LogsProcessingRule.t :=
  LogsProcessingRule.mk MASK_SEQUENCES "mask_cards" "[masked]" "[0-9]{16}" None [].
Definition broken : LogsProcessingRule.t :=
  LogsProcessingRule.mk EXCLUDE_AT_MATCH "broken" "" "(" None [].
Definition unnamed : LogsProcessingRule.t :=
  LogsProcessingRule.mk MASK_SEQUENCES "" "x" "a+" None [].
Definition untyped : LogsProcessingRule.t :=
  LogsProcessingRule.mk "" "no_type" "" "a+" None [].
Definition oddType : LogsProcessingRule.t :=
  LogsProcessingRule.mk "include_at_match" "odd" "" "a+" None [].

Definition s1 : IntegrationConfigLogSource.t :=
  IntegrationConfigLogSource.mk FILE_TYPE 0 "/var/log/nginx/access.log" "web" "main"
    "nginx" "webserver" "env:prod" [] [dropDebug; maskCards].
Definition s2 : IntegrationConfigLogSource.t :=
  IntegrationConfigLogSource.mk TCP_TYPE 10514 "" "web" "main" "nginx" "" "" [] [].
Definition s3 : IntegrationConfigLogSource.t :=
  IntegrationConfigLogSource.mk UDP_TYPE 5000 "" "" "" "" "" "" [] [dropDebug].
Definition noPath : IntegrationConfigLogSource.t :=
  IntegrationConfigLogSource.mk FILE_TYPE 0 "" "" "" "" "" "" [] [].

Definition badRules : IntegrationConfigLogSource.t :=
  IntegrationConfigLogSource.mk TCP_TYPE 514 "" "" "" "syslog" "" "" []
    [dropDebug; broken; unnamed].

Definition confd : string := "/etc/dd-agent/conf.d".
Definition faulty : string := "/etc/dd-agent/faulty.d".
Definition crashing : string := "/etc/dd-agent/crashing.d".
Definition missing : string := "/etc/dd-agent/missing.d".

Definition readDir (dirname : string) : list string + error :=
  if decide (dirname = confd)
  then inl ["README.md"; "datadog.yaml"; "nginx.yaml"; "nginx.yaml.bak"; "syslog.yaml"]
  else if decide (dirname = faulty)
  then inl ["a.yaml"; "b.yaml"; "c.yaml"]
  else if decide (dirname = crashing)
  then inl ["a.yaml"; "x.yaml"]
  else inr ("open " +:+ dirname +:+ ": no such file or directory").

Definition readInConfig (path name : string) : IntegrationConfig + error :=
  if decide (path = confd /\ name = "nginx") then inl (mkIntegrationConfig [s1; s2])
  else if decide (path = confd /\ name = "syslog") then inl (mkIntegrationConfig [s3])
  else if decide (path = faulty /\ name = "a") then inl (mkIntegrationConfig [s3])
  else if decide (path = faulty /\ name = "b") then inl (mkIntegrationConfig [s2; noPath; s1])
  else if decide (path = faulty /\ name = "c") then inl (mkIntegrationConfig [s1])
  else if decide (path = crashing /\ name = "a") then inl (mkIntegrationConfig [s1])
  else if decide (path = crashing /\ name = "x") then inl (mkIntegrationConfig [s3; badRules])
  else inr ("Config File " +:+ name +:+ " Not Found in " +:+ path).

Definition env : Env := {|
  DeprecatedConfig := "datadog";
  Compile := compile;
  ReadDir := readDir;
  RawConfig := IntegrationConfig;
  ReadInConfig := readInConfig;
  Unmarshal := inl
|}.

(** The sources of [confd] as the load stores them, and the rules of [s1]
    as the validation returns them. *)
Definition stored : list IntegrationConfigLogSource.t :=
  Eval vm_compute in
    match sources_loop (H := env) [s1; s2; s3] [] with
    | Return (l, _) => l
    | Panic => []
    end.

Definition validated : list LogsProcessingRule.t :=
  Eval vm_compute in
    match validateProcessingRules (H := env) [dropDebug; maskCards] with
    | Return (l, _) => l
    | Panic => []
    end.
End Fixture.

Example discover_confd :
  availableIntegrationConfigs (H := Fixture.env) Fixture.confd = ["nginx"; "syslog"].
Proof. vm_compute. reflexivity. Qed.

Example ext_examples :
  filepath.Ext "nginx.yaml" = ".yaml" /\ filepath.Ext "nginx.yaml.bak" = ".bak"
  /\ filepath.Ext "README" = "" /\ filepath.Ext "a.b/c" = "" /\ filepath.Ext ".yaml" = ".yaml".
Proof. vm_compute. repeat split. Qed.

(** * Properties *)

(** ** Strings and bytes *)

Lemma append_cons (c : ascii) (a b : string) : String c a +:+ b = String c (a +:+ b).
Proof. reflexivity. Qed.

Lemma append_empty_r (s : string) : s +:+ "" = s.
Proof. induction s as [|c s IH]; [reflexivity | by rewrite append_cons, IH]. Qed.

Lemma append_assoc (a b c : string) : (a +:+ b) +:+ c = a +:+ (b +:+ c).
Proof. induction a as [|x a IH]; [reflexivity | by rewrite !append_cons, IH]. Qed.

Lemma length_append (a b : string) :
  String.length (a +:+ b) = String.length a + String.length b.
Proof. induction a as [|x a IH]; [reflexivity | rewrite append_cons; simpl; by rewrite IH]. Qed.

Lemma bytes_cons (c : ascii) (s : string) : bytes (String c s) = byte_of_ascii c :: bytes s.
Proof. reflexivity. Qed.

Lemma bytes_app (a b : string) : bytes (a +:+ b) = bytes a ++ bytes b.
Proof.
  induction a as [|c a IH]; [reflexivity|].
  by rewrite append_cons, !bytes_cons, IH.
Qed.

Lemma length_bytes (s : string) : length (bytes s) = String.length s.
Proof.
  induction s as [|c s IH]; [reflexivity|].
  rewrite bytes_cons. simpl. by rewrite IH.
Qed.

(** ** The tags payload *)

(** One conditional append of [buildTagsPayload]. *)
Lemma append_annotation (acc : list byte) (key value : string) :
  (if decide (value <> "")
   then ((acc ++ bytes (key +:+ dquote)) ++ bytes value) ++ bytes (dquote +:+ "]")
   else acc)
  = acc ++ bytes (if decide (value = "") then ""
                  else key +:+ dquote +:+ value +:+ dquote +:+ "]").
Proof.
  destruct (decide (value = "")) as [->|Hne].
  - rewrite decide_False by (intros Hn; by apply Hn).
    by rewrite app_nil_r.
  - rewrite decide_True by assumption.
    by rewrite <- !app_assoc, <- !bytes_app, !append_assoc.
Qed.

Lemma annotation_length (key value : string) :
  String.length (key +:+ dquote +:+ value +:+ dquote +:+ "]") <> 0.
Proof. rewrite !length_append. simpl. lia. Qed.

(** C1. For every triple of strings, [buildTagsPayload] returns the
    concatenation, in the fixed order source, source category, tags, of the
    annotations of the non-empty ones, each written with its literal
    brackets and quotes; it returns the single byte '-' when all three are
    empty. *)
Theorem buildTagsPayload_spec (tags source sourceCategory : string) :
  buildTagsPayload tags source sourceCategory = tagsPayload_spec tags source sourceCategory.
Proof.
  unfold buildTagsPayload, tagsPayload_spec.
  rewrite !append_annotation, app_nil_l, <- !bytes_app, length_bytes, !length_append.
  destruct (decide (source = "")) as [->|Hs];
    destruct (decide (sourceCategory = "")) as [->|Hc];
    destruct (decide (tags = "")) as [->|Ht];
    repeat case_decide; try reflexivity; try tauto;
    try (pose proof (annotation_length "[dd ddsource=" source));
    try (pose proof (annotation_length "[dd ddsourcecategory=" sourceCategory));
    try (pose proof (annotation_length "[dd ddtags=" tags));
    try lia;
    by rewrite ?append_assoc.
Qed.

(** The example of the specification. *)
Example buildTagsPayload_example :
  buildTagsPayload "env:prod" "nginx" "webserver"
  = bytes ("[dd ddsource=" +:+ dquote +:+ "nginx" +:+ dquote +:+ "]"
           +:+ "[dd ddsourcecategory=" +:+ dquote +:+ "webserver" +:+ dquote +:+ "]"
           +:+ "[dd ddtags=" +:+ dquote +:+ "env:prod" +:+ dquote +:+ "]")
  /\ buildTagsPayload "" "" "" = bytes "-".
Proof. split; reflexivity. Qed.

(** ** Validation of a source *)

Lemma type_constants_distinct :
  FILE_TYPE <> TCP_TYPE /\ FILE_TYPE <> UDP_TYPE /\ TCP_TYPE <> UDP_TYPE.
Proof. repeat split; discriminate. Qed.

(** The four outcomes of [validateSource], one per return statement. *)
Lemma validateSource_cases (config : IntegrationConfigLogSource.t) :
  let type := IntegrationConfigLogSource.Type_ config in
  (~ (type = FILE_TYPE \/ type = TCP_TYPE \/ type = UDP_TYPE)
   /\ validateSource config
      = Some ("A source must have a valid type (got " +:+ type +:+ ")"))
  \/ (type = FILE_TYPE /\ IntegrationConfigLogSource.Path config = ""
      /\ validateSource config = Some "A file source must have a path")
  \/ (type = TCP_TYPE /\ IntegrationConfigLogSource.Port config = 0%Z
      /\ validateSource config = Some "A tcp source must have a port")
  \/ (type = UDP_TYPE /\ IntegrationConfigLogSource.Port config = 0%Z
      /\ validateSource config = Some "A udp source must have a port")
  \/ (~ invalidSource config /\ validateSource config = None).
Proof.
  destruct type_constants_distinct as (Hft & Hfu & Htu).
  unfold validateSource, invalidSource. cbv zeta.
  repeat case_decide; tauto.
Qed.

(** C3. [validateSource] returns an error if and only if the type is not
    one of file, tcp, udp, or the type is file and the path is empty, or the
    type is tcp or udp and the port is 0; otherwise it returns no error. *)
Theorem validateSource_error_iff (config : IntegrationConfigLogSource.t) :
  (is_Some (validateSource config) <-> invalidSource config)
  /\ (validateSource config = None <-> ~ invalidSource config).
Proof.
  assert (invalidSource config /\ is_Some (validateSource config)
          \/ ~ invalidSource config /\ validateSource config = None) as Hcases.
  { destruct (validateSource_cases config)
      as [(Hty & ->)|[(Hty & Hp & ->)|[(Hty & Hp & ->)|[(Hty & Hp & ->)|(Hok & ->)]]]];
      [left; split; [unfold invalidSource; cbv zeta; tauto | by eexists] ..
      | right; by split]. }
  destruct Hcases as [(Hbad & Hsome)|(Hok & Hnone)].
  - split; split; intros Hx; try done.
    destruct Hsome as [e He]. congruence.
  - rewrite Hnone. split; split; intros Hx; try done.
Qed.

(** C9. For a tcp or udp source every port other than 0 is accepted: no
    range check is made, so negative ports and ports above 65535 pass. *)
Theorem validateSource_any_nonzero_port (config : IntegrationConfigLogSource.t) :
  IntegrationConfigLogSource.Type_ config = TCP_TYPE
  \/ IntegrationConfigLogSource.Type_ config = UDP_TYPE ->
  IntegrationConfigLogSource.Port config <> 0%Z ->
  validateSource config = None.
Proof.
  intros Hty Hport.
  destruct type_constants_distinct as (Hft & Hfu & Htu).
  destruct (validateSource_cases config)
    as [(Hbad & _)|[(Hf & _)|[(_ & Hz & _)|[(_ & Hz & _)|(_ & Hok)]]]];
    [tauto | | done | done | exact Hok].
  destruct Hty as [Ht|Hu]; congruence.
Qed.

(** ** Extensions of file names *)

Lemma substring_all (s : string) : substring 0 (String.length s) s = s.
Proof. induction s as [|c s IH]; [reflexivity | simpl; by rewrite IH]. Qed.

Lemma substring_split (s : string) (i : nat) :
  i <= String.length s ->
  substring 0 i s +:+ substring i (String.length s - i) s = s.
Proof.
  revert i. induction s as [|c s IH]; intros [|i] Hi; simpl in *; try lia.
  - reflexivity.
  - by rewrite substring_all.
  - rewrite append_cons, IH by lia. reflexivity.
Qed.

Lemma length_substring (s : string) (i m : nat) :
  i + m <= String.length s -> String.length (substring i m s) = m.
Proof.
  revert i m. induction s as [|c s IH]; intros [|i] [|m] Hm; simpl in *; try lia.
  - rewrite (IH 0 m) by lia. reflexivity.
  - apply (IH i 0). lia.
  - apply (IH i (S m)). lia.
Qed.

Lemma get_append_r (a b : string) (k : nat) :
  String.get (String.length a + k) (a +:+ b) = String.get k b.
Proof. induction a as [|c a IH]; [reflexivity | rewrite append_cons; exact IH]. Qed.

Lemma substring_append_r (a b : string) (m : nat) :
  substring (String.length a) m (a +:+ b) = substring 0 m b.
Proof. induction a as [|c a IH]; [reflexivity | rewrite append_cons; exact IH]. Qed.

(** The extension is empty or starts at a dot of the name. *)
Lemma Ext_loop_cases (path : string) (n : nat) :
  filepath.Ext_loop path n = ""
  \/ exists i, i < n
       /\ filepath.Ext_loop path n = substring i (String.length path - i) path.
Proof.
  induction n as [|n IH]; simpl; [by left|].
  destruct (String.get n path) as [c|]; [|by left].
  destruct (filepath.IsPathSeparator c); [by left|].
  destruct (Ascii.eqb c "."); [right; exists n; split; [lia | reflexivity]|].
  destruct IH as [IH|(i & Hi & IH)]; [by left|].
  right. exists i. split; [lia | exact IH].
Qed.

(** The extension is a suffix: the slice [filename[0 : len(filename) -
    len(extension)]] is in range and, with the extension, gives the name
    back. *)
Lemma stripExt_Ext (filename : string) :
  String.length (filepath.Ext filename) <= String.length filename
  /\ stripExt filename +:+ filepath.Ext filename = filename.
Proof.
  unfold stripExt, filepath.Ext.
  destruct (Ext_loop_cases filename (String.length filename)) as [->|(i & Hi & ->)].
  - simpl. split; [lia|].
    by rewrite Nat.sub_0_r, substring_all, append_empty_r.
  - rewrite length_substring by lia. split; [lia|].
    replace (String.length filename - (String.length filename - i)) with i by lia.
    apply substring_split. lia.
Qed.

Lemma Ext_yaml (name : string) : filepath.Ext (name +:+ ".yaml") = ".yaml".
Proof.
  unfold filepath.Ext. rewrite length_append.
  replace (String.length name + String.length ".yaml")
    with (S (S (S (S (S (String.length name)))))) by (simpl; lia).
  cbn [filepath.Ext_loop].
  replace (S (S (S (S (String.length name))))) with (String.length name + 4) by lia.
  rewrite get_append_r. cbn.
  replace (S (S (S (String.length name)))) with (String.length name + 3) by lia.
  rewrite get_append_r. cbn.
  replace (S (S (String.length name))) with (String.length name + 2) by lia.
  rewrite get_append_r. cbn.
  replace (S (String.length name)) with (String.length name + 1) by lia.
  rewrite get_append_r. cbn.
  rewrite <- (Nat.add_0_r (String.length name)) at 1.
  rewrite get_append_r. cbn.
  rewrite length_append, substring_append_r.
  replace (String.length name + String.length ".yaml" - String.length name) with 5
    by (simpl; lia).
  reflexivity.
Qed.

Lemma stripExt_yaml (name : string) : stripExt (name +:+ ".yaml") = name.
Proof.
  pose proof (stripExt_Ext (name +:+ ".yaml")) as [_ Heq].
  rewrite Ext_yaml in Heq.
  revert Heq. generalize (stripExt (name +:+ ".yaml")). intros s.
  revert name. induction s as [|c s IH]; intros [|d name] Heq;
    rewrite ?append_cons in Heq; try reflexivity.
  - simpl in Heq. injection Heq as -> Heq.
    destruct name as [|? [|? [|? [|? [|? ?]]]]]; discriminate Heq.
  - change ("" +:+ ".yaml") with ".yaml" in Heq.
    injection Heq as -> Heq.
    destruct s as [|? [|? [|? [|? [|? ?]]]]]; discriminate Heq.
  - injection Heq as -> Heq. f_equal. by apply IH.
Qed.

(** ** Discovery of the integration files *)

Section Discovery.
Context `{Env}.

(** The loop of [availableIntegrationConfigs] appends the stripped names
    of the candidates to what it has so far. *)
Lemma discovery_loop (files acc : list string) :
  foldl (fun integrationConfigFiles filename =>
           let extension := filepath.Ext filename in
           let name := substring 0 (String.length filename - String.length extension)
                                 filename in
           if decide (extension = ".yaml" /\ name <> DeprecatedConfig)
           then integrationConfigFiles ++ [name]
           else integrationConfigFiles) acc files
  = acc ++ (stripExt <$> filter candidate files).
Proof.
  revert acc. induction files as [|filename files IH]; intros acc; simpl.
  - by rewrite app_nil_r.
  - rewrite IH, filter_cons. unfold candidate at 2, stripExt at 3.
    case_decide; [|reflexivity].
    by rewrite fmap_cons, <- app_assoc.
Qed.

(** C7. Discovery returns the names, without extension, of the entries
    whose extension is .yaml and whose name is not the deprecated one, in
    the order of the listing. A name is returned exactly when the listing
    has that name followed by .yaml and the name is not the deprecated
    one: the deprecated name is never returned, and every returned name
    comes from a .yaml entry. *)
Theorem availableIntegrationConfigs_spec (ddconfdPath : string) :
  availableIntegrationConfigs ddconfdPath
  = stripExt <$> filter candidate (listing ddconfdPath)
  /\ (forall name,
        name ∈ availableIntegrationConfigs ddconfdPath
        <-> ((name +:+ ".yaml") ∈ listing ddconfdPath /\ name <> DeprecatedConfig))
  /\ (DeprecatedConfig ∉ availableIntegrationConfigs ddconfdPath)
  /\ (forall name,
        name ∈ availableIntegrationConfigs ddconfdPath ->
        exists filename,
          filename ∈ listing ddconfdPath
          /\ filepath.Ext filename = ".yaml"
          /\ filename = name +:+ ".yaml").
Proof.
  assert (availableIntegrationConfigs ddconfdPath
          = stripExt <$> filter candidate (listing ddconfdPath)) as Heq.
  { unfold availableIntegrationConfigs. cbv zeta. by rewrite discovery_loop. }
  assert (forall name,
            name ∈ availableIntegrationConfigs ddconfdPath
            <-> ((name +:+ ".yaml") ∈ listing ddconfdPath /\ name <> DeprecatedConfig))
    as Hiff.
  { intros name. rewrite Heq, list_elem_of_fmap. split.
    - intros (filename & -> & Hin).
      apply list_elem_of_filter in Hin as [[Hext Hname] Hin].
      split; [|exact Hname].
      pose proof (stripExt_Ext filename) as [_ Hsplit].
      rewrite Hext in Hsplit. by rewrite Hsplit.
    - intros [Hin Hname]. exists (name +:+ ".yaml").
      split; [by rewrite stripExt_yaml|].
      apply list_elem_of_filter. split; [|exact Hin].
      split; [apply Ext_yaml | by rewrite stripExt_yaml]. }
  split; [exact Heq|]. split; [exact Hiff|]. split.
  - intros Hin. apply Hiff in Hin as [_ Hne]. by apply Hne.
  - intros name Hin. apply Hiff in Hin as [Hin _].
    exists (name +:+ ".yaml"). split; [exact Hin|]. split; [apply Ext_yaml | reflexivity].
Qed.

Lemma availableIntegrationConfigs_listing_failed (ddconfdPath : string) (e : error) :
  ReadDir ddconfdPath = inr e -> availableIntegrationConfigs ddconfdPath = [].
Proof.
  intros Herr. unfold availableIntegrationConfigs, listing. by rewrite Herr.
Qed.

(** C8. When listing the directory fails, discovery returns no name and
    reports nothing: the load returns no error and stores the empty list
    of sources, which the accessor then returns. *)
Theorem listing_failure_is_silent (config : viper.Viper) (ddconfdPath : string) (e : error) :
  ReadDir ddconfdPath = inr e ->
  availableIntegrationConfigs ddconfdPath = []
  /\ buildLogsAgentIntegrationsConfig config ddconfdPath
     = Return (viper.Set_ LOGS_RULES (viper.Sources []) config, None)
  /\ getLogsSources (viper.Set_ LOGS_RULES (viper.Sources []) config) = Return [].
Proof.
  intros Herr.
  pose proof (availableIntegrationConfigs_listing_failed _ _ Herr) as Hnil.
  split; [exact Hnil|]. split.
  - unfold buildLogsAgentIntegrationsConfig. cbv zeta. by rewrite Hnil.
  - unfold getLogsSources, viper.Get, viper.Set_. by rewrite lookup_insert_eq.
Qed.
End Discovery.

(** ** Validation of the processing rules *)

Section Rules.
Context `{Env}.

Lemma alter_middle {A : Type} (f : A -> A) (done todo : list A) (x : A) :
  alter f (length done) (done ++ x :: todo) = done ++ f x :: todo.
Proof. rewrite <- (Nat.add_0_r (length done)), alter_app_r. reflexivity. Qed.

(** The loop with index [i = length done] over the slice [done ++ todo]
    does to [todo] what [checkRules] does, and leaves [done] as it is. *)
Lemma validateProcessingRules_loop_spec (todo done : list LogsProcessingRule.t) :
  validateProcessingRules_loop (length todo) (length done) (done ++ todo)
  = (r <- checkRules todo ;;;
     match r with
     | inl todo' => Return (done ++ todo', None)
     | inr err => Return ([], Some err)
     end).
Proof.
  revert done. induction todo as [|rule todo IH]; intros done.
  - reflexivity.
  - cbn [length validateProcessingRules_loop checkRules].
    rewrite list_lookup_middle by reflexivity.
    unfold checkRule.
    destruct (decide (LogsProcessingRule.Name rule = "")); [reflexivity|].
    destruct (decide (LogsProcessingRule.Type_ rule = EXCLUDE_AT_MATCH)).
    { destruct (MustCompile (LogsProcessingRule.Pattern rule)) as [re|]; [|reflexivity].
      cbn [bind]. rewrite alter_middle.
      specialize (IH (done ++ [LogsProcessingRule.set_Reg (Some re) rule])).
      rewrite length_app, Nat.add_1_r, <- app_assoc in IH. cbn [app] in IH.
      rewrite IH.
      destruct (checkRules todo) as [[todo'|err]|]; cbn [bind]; [|reflexivity..].
      by rewrite <- app_assoc. }
    destruct (decide (LogsProcessingRule.Type_ rule = MASK_SEQUENCES)).
    { destruct (MustCompile (LogsProcessingRule.Pattern rule)) as [re|]; [|reflexivity].
      cbn [bind]. rewrite !alter_middle.
      match goal with
      | |- context [done ++ ?r' :: todo] => specialize (IH (done ++ [r']))
      end.
      rewrite length_app, Nat.add_1_r, <- app_assoc in IH. cbn [app] in IH.
      rewrite IH.
      destruct (checkRules todo) as [[todo'|err]|]; cbn [bind]; [|reflexivity..].
      by rewrite <- app_assoc. }
    destruct (decide (LogsProcessingRule.Type_ rule = "")); reflexivity.
Qed.

(** [validateProcessingRules] in terms of [checkRules]. *)
Lemma validateProcessingRules_checkRules (rules : list LogsProcessingRule.t) :
  validateProcessingRules rules
  = (r <- checkRules rules ;;;
     match r with
     | inl rules' => Return (rules', None)
     | inr err => Return ([], Some err)
     end).
Proof. apply (validateProcessingRules_loop_spec rules []). Qed.

Lemma checkRule_accepted (rule : LogsProcessingRule.t) :
  ruleAccepted rule -> exists rule', checkRule rule = Return (inl rule').
Proof.
  intros (Hname & Htype & re & Hre). unfold checkRule, MustCompile.
  rewrite decide_False by assumption. rewrite Hre.
  destruct Htype as [Ht|Ht].
  - rewrite decide_True by assumption. by eexists.
  - rewrite Ht. rewrite decide_False by discriminate.
    rewrite decide_True by reflexivity. by eexists.
Qed.

(** Accepted rules in front do not change the verdict on what follows. *)
Lemma checkRules_accepted_prefix (before : list LogsProcessingRule.t) :
  Forall ruleAccepted before ->
  exists before',
    forall rest,
      checkRules (before ++ rest)
      = (r <- checkRules rest ;;;
         match r with
         | inl rest' => Return (inl (before' ++ rest'))
         | inr err => Return (inr err)
         end).
Proof.
  induction 1 as [|rule before Hrule _ (before' & IH)].
  - exists []. intros rest. cbn [app].
    by destruct (checkRules rest) as [[?|?]|].
  - destruct (checkRule_accepted rule Hrule) as (rule' & Hrule').
    exists (rule' :: before'). intros rest.
    cbn [app checkRules]. rewrite Hrule', IH. cbn [bind].
    by destruct (checkRules rest) as [[?|?]|].
Qed.

(** The verdict of the loop when the first rule that is not accepted is
    reached: the verdict of [checkRule] on that rule. *)
Lemma validateProcessingRules_first_rejected
    (before after : list LogsProcessingRule.t) (rule : LogsProcessingRule.t) :
  Forall ruleAccepted before ->
  (forall err, checkRule rule = Return (inr err) ->
     validateProcessingRules (before ++ rule :: after) = Return ([], Some err))
  /\ (checkRule rule = Panic ->
      validateProcessingRules (before ++ rule :: after) = Panic).
Proof.
  intros Hbefore.
  destruct (checkRules_accepted_prefix before Hbefore) as (before' & Hpre).
  split; [intros err Hrule | intros Hrule];
    rewrite validateProcessingRules_checkRules, Hpre;
    cbn [checkRules]; by rewrite Hrule.
Qed.

Lemma checkRule_kept (rule rule' : LogsProcessingRule.t) :
  checkRule rule = Return (inl rule') -> ~ ruleOffends rule.
Proof.
  unfold checkRule, ruleOffends. intros Hrule.
  repeat case_decide; try discriminate Hrule; tauto.
Qed.

Lemma checkRules_kept (rules rules' : list LogsProcessingRule.t) :
  checkRules rules = Return (inl rules') -> Forall (fun rule => ~ ruleOffends rule) rules.
Proof.
  revert rules'. induction rules as [|rule rules IH]; intros rules' Hrules; [constructor|].
  cbn [checkRules] in Hrules.
  destruct (checkRule rule) as [[rule'|err]|] eqn:Hrule; try discriminate Hrules.
  cbn [bind] in Hrules.
  destruct (checkRules rules) as [[rest|err]|] eqn:Hrest; try discriminate Hrules.
  constructor; [by eapply checkRule_kept | by eapply IH].
Qed.

Lemma checkRule_frame (rule rule' : LogsProcessingRule.t) :
  checkRule rule = Return (inl rule') -> ruleFrame rule rule'.
Proof.
  unfold checkRule, ruleFrame. intros Hrule.
  repeat case_decide; try discriminate Hrule;
    destruct (MustCompile (LogsProcessingRule.Pattern rule)) as [re|];
    try discriminate Hrule; cbn [bind] in Hrule;
    injection Hrule as <-; cbn; repeat split; try done.
  intros Hmask.
  match goal with
  | Hexcl : LogsProcessingRule.Type_ rule = EXCLUDE_AT_MATCH |- _ =>
      rewrite Hexcl in Hmask; discriminate Hmask
  end.
Qed.

Lemma checkRules_frame (rules rules' : list LogsProcessingRule.t) :
  checkRules rules = Return (inl rules') -> Forall2 ruleFrame rules rules'.
Proof.
  revert rules'. induction rules as [|rule rules IH]; intros rules' Hrules.
  - injection Hrules as <-. constructor.
  - cbn [checkRules] in Hrules.
    destruct (checkRule rule) as [[rule'|err]|] eqn:Hrule; try discriminate Hrules.
    cbn [bind] in Hrules.
    destruct (checkRules rules) as [[rest|err]|]; try discriminate Hrules.
    cbn [bind] in Hrules. injection Hrules as <-.
    constructor; [by apply checkRule_frame | by apply IH].
Qed.
End Rules.

(** ** The load *)

Section Load.
Context `{Env}.

Lemma sources_loop_app (l1 l2 acc : list IntegrationConfigLogSource.t) :
  sources_loop (l1 ++ l2) acc
  = (r <- sources_loop l1 acc ;;;
     match r with
     | (acc', Some err) => Return (acc', Some err)
     | (acc', None) => sources_loop l2 acc'
     end).
Proof.
  revert acc. induction l1 as [|s l1 IH]; intros acc; [reflexivity|].
  cbn [app sources_loop].
  destruct (validateSource s); [reflexivity|].
  destruct (validateProcessingRules _) as [[rules [err|]]|]; cbn [bind];
    [reflexivity | apply IH | reflexivity].
Qed.

Lemma files_loop_app (ddconfdPath : string) (l1 l2 : list string)
    (acc : list IntegrationConfigLogSource.t) :
  files_loop ddconfdPath (l1 ++ l2) acc
  = (r <- files_loop ddconfdPath l1 acc ;;;
     match r with
     | (acc', Some err) => Return (acc', Some err)
     | (acc', None) => files_loop ddconfdPath l2 acc'
     end).
Proof.
  revert acc. induction l1 as [|file l1 IH]; intros acc; [reflexivity|].
  cbn [app files_loop].
  destruct (ReadInConfig ddconfdPath file) as [raw|]; [|reflexivity].
  destruct (Unmarshal raw) as [cfg|]; [|reflexivity].
  destruct (sources_loop (Logs cfg) acc) as [[acc' [err|]]|]; cbn [bind];
    [reflexivity | apply IH | reflexivity].
Qed.

(** One source, alone. *)
Lemma sources_loop_one (s : IntegrationConfigLogSource.t)
    (acc : list IntegrationConfigLogSource.t) :
  (forall e, sourceFails s e -> sources_loop [s] acc = Return (acc, Some e))
  /\ (sourcePanics s -> sources_loop [s] acc = Panic)
  /\ (forall s', registered s s' -> sources_loop [s] acc = Return (acc ++ [s'], None)).
Proof.
  cbn [sources_loop]. split; [|split].
  - intros e [Hv|(Hv & rs & Hr)]; rewrite Hv; [reflexivity|]. by rewrite Hr.
  - intros (Hv & Hr). by rewrite Hv, Hr.
  - intros s' (Hv & rules & Hr & ->). by rewrite Hv, Hr.
Qed.

(** What one source gives: stored, rejected, or a panic. *)
Lemma sources_loop_one_inv (s : IntegrationConfigLogSource.t)
    (acc : list IntegrationConfigLogSource.t) :
  (exists s', registered s s' /\ sources_loop [s] acc = Return (acc ++ [s'], None))
  \/ (exists e, sourceFails s e /\ sources_loop [s] acc = Return (acc, Some e))
  \/ (sourcePanics s /\ sources_loop [s] acc = Panic).
Proof.
  destruct (validateSource s) as [e|] eqn:Hv.
  { right; left. exists e.
    assert (sourceFails s e) as Hf by (by left).
    split; [exact Hf | by apply sources_loop_one]. }
  destruct (validateProcessingRules (IntegrationConfigLogSource.ProcessingRules s))
    as [[rules [e|]]|] eqn:Hr.
  - right; left. exists e.
    assert (sourceFails s e) as Hf by (right; eauto).
    split; [exact Hf | by apply sources_loop_one].
  - left. eexists.
    assert (registered s
              (IntegrationConfigLogSource.set_TagsPayload
                 (buildTagsPayload (IntegrationConfigLogSource.Tags s)
                                   (IntegrationConfigLogSource.Source s)
                                   (IntegrationConfigLogSource.SourceCategory s))
                 (IntegrationConfigLogSource.set_ProcessingRules rules s))) as Hreg
      by (split; eauto).
    split; [exact Hreg | by apply sources_loop_one].
  - right; right.
    assert (sourcePanics s) as Hp by (by split).
    split; [exact Hp | by apply sources_loop_one].
Qed.

(** A successful pass over the sources stores one entry per source, in
    the order of the declaration. *)
Lemma sources_loop_ok (logs acc acc' : list IntegrationConfigLogSource.t) :
  sources_loop logs acc = Return (acc', None) ->
  exists stored, acc' = acc ++ stored /\ Forall2 registered logs stored.
Proof.
  revert acc. induction logs as [|s logs IH]; intros acc Hloop.
  - injection Hloop as <-. exists []. split; [by rewrite app_nil_r | constructor].
  - change (s :: logs) with ([s] ++ logs) in Hloop.
    rewrite sources_loop_app in Hloop.
    destruct (sources_loop_one_inv s acc)
      as [(s' & Hreg & Hs)|[(e & _ & Hs)|(_ & Hs)]];
      rewrite Hs in Hloop; cbn [bind] in Hloop; try discriminate Hloop.
    destruct (IH _ Hloop) as (stored & -> & Hall).
    exists (s' :: stored). split; [by rewrite <- app_assoc | by constructor].
Qed.

(** A failing pass over the sources stops at the first source that
    fails. *)
Lemma sources_loop_err (logs acc acc' : list IntegrationConfigLogSource.t) (e : error) :
  sources_loop logs acc = Return (acc', Some e) ->
  exists before s after,
    logs = before ++ s :: after
    /\ sources_loop before acc = Return (acc', None)
    /\ sourceFails s e.
Proof.
  revert acc. induction logs as [|s logs IH]; intros acc Hloop; [discriminate Hloop|].
  change (s :: logs) with ([s] ++ logs) in Hloop.
  rewrite sources_loop_app in Hloop.
  destruct (sources_loop_one_inv s acc)
    as [(s' & Hreg & Hs)|[(e' & Hfail & Hs)|(_ & Hs)]];
    rewrite Hs in Hloop; cbn [bind] in Hloop; try discriminate Hloop.
  - destruct (IH _ Hloop) as (before & s0 & after & -> & Hbefore & Hfail).
    exists (s :: before), s0, after. split; [reflexivity|]. split; [|exact Hfail].
    change (s :: before) with ([s] ++ before).
    rewrite sources_loop_app, Hs. exact Hbefore.
  - injection Hloop as <- <-.
    exists [], s, logs. by repeat split.
Qed.

(** One file, alone. *)
Lemma files_loop_single (ddconfdPath file : string)
    (acc : list IntegrationConfigLogSource.t) :
  files_loop ddconfdPath [file] acc
  = match parseFile ddconfdPath file with
    | inl cfg => sources_loop (Logs cfg) acc
    | inr err => Return (acc, Some err)
    end.
Proof.
  cbn [files_loop]. unfold parseFile.
  destruct (ReadInConfig ddconfdPath file) as [raw|]; [|reflexivity].
  destruct (Unmarshal raw) as [cfg|]; [|reflexivity].
  by destruct (sources_loop (Logs cfg) acc) as [[acc' [err|]]|].
Qed.

Lemma files_loop_cons (ddconfdPath file : string) (files : list string)
    (acc : list IntegrationConfigLogSource.t) :
  files_loop ddconfdPath (file :: files) acc
  = (r <- match parseFile ddconfdPath file with
          | inl cfg => sources_loop (Logs cfg) acc
          | inr err => Return (acc, Some err)
          end ;;;
     match r with
     | (acc', Some err) => Return (acc', Some err)
     | (acc', None) => files_loop ddconfdPath files acc'
     end).
Proof.
  change (file :: files) with ([file] ++ files).
  by rewrite files_loop_app, files_loop_single.
Qed.

(** A successful pass over the files stores the sources of every file,
    file after file. *)
Lemma files_loop_ok (ddconfdPath : string) (files : list string)
    (acc acc' : list IntegrationConfigLogSource.t) :
  files_loop ddconfdPath files acc = Return (acc', None) ->
  exists cfgs stored,
    Forall2 (fun file cfg => parseFile ddconfdPath file = inl cfg) files cfgs
    /\ acc' = acc ++ stored
    /\ Forall2 registered (concat (Logs <$> cfgs)) stored.
Proof.
  revert acc. induction files as [|file files IH]; intros acc Hloop.
  - injection Hloop as <-. exists [], [].
    split; [constructor|]. split; [by rewrite app_nil_r | constructor].
  - rewrite files_loop_cons in Hloop.
    destruct (parseFile ddconfdPath file) as [cfg|err] eqn:Hparse;
      [|discriminate Hloop].
    destruct (sources_loop (Logs cfg) acc) as [[acc1 [err|]]|] eqn:Hsources;
      cbn [bind] in Hloop; try discriminate Hloop.
    apply sources_loop_ok in Hsources as (stored1 & -> & Hreg1).
    destruct (IH _ Hloop) as (cfgs & stored & Hparsed & -> & Hreg).
    exists (cfg :: cfgs), (stored1 ++ stored).
    split; [by constructor|]. split; [by rewrite <- app_assoc|].
    rewrite fmap_cons. cbn [concat]. by apply Forall2_app.
Qed.

(** A failing pass over the files stops at the first file that fails. *)
Lemma files_loop_err (ddconfdPath : string) (files : list string)
    (acc acc' : list IntegrationConfigLogSource.t) (e : error) :
  files_loop ddconfdPath files acc = Return (acc', Some e) ->
  exists before file after acc0,
    files = before ++ file :: after
    /\ files_loop ddconfdPath before acc = Return (acc0, None)
    /\ fileFails ddconfdPath file acc0 e.
Proof.
  revert acc. induction files as [|file files IH]; intros acc Hloop;
    [discriminate Hloop|].
  rewrite files_loop_cons in Hloop.
  destruct (parseFile ddconfdPath file) as [cfg|err] eqn:Hparse.
  - destruct (sources_loop (Logs cfg) acc) as [[acc1 [err|]]|] eqn:Hsources;
      cbn [bind] in Hloop; try discriminate Hloop.
    + injection Hloop as <- <-.
      apply sources_loop_err in Hsources as (sb & s & sa & Hlogs & Hsb & Hfail).
      exists [], file, files, acc. split; [reflexivity|]. split; [reflexivity|].
      right. exists cfg, sb, s, sa, acc1. by repeat split.
    + destruct (IH _ Hloop) as (before & file0 & after & acc0 & -> & Hbefore & Hfail).
      exists (file :: before), file0, after, acc0.
      split; [reflexivity|]. split; [|exact Hfail].
      by rewrite files_loop_cons, Hparse, Hsources.
  - cbn [bind] in Hloop. injection Hloop as <- <-.
    exists [], file, files, acc. split; [reflexivity|]. split; [reflexivity|].
    by left.
Qed.

(** Once a file fails, the files after it play no part. *)
Lemma files_loop_abort (ddconfdPath file : string) (before after : list string)
    (acc acc0 : list IntegrationConfigLogSource.t) (e : error) :
  files_loop ddconfdPath before acc = Return (acc0, None) ->
  fileFails ddconfdPath file acc0 e ->
  exists acc', files_loop ddconfdPath (before ++ file :: after) acc = Return (acc', Some e).
Proof.
  intros Hbefore Hfail.
  rewrite files_loop_app, Hbefore. cbn [bind].
  rewrite files_loop_cons.
  destruct Hfail as [Hparse|(cfg & sb & s & sa & acc1 & Hparse & Hlogs & Hsb & Hfail)];
    rewrite Hparse; [by eexists|].
  rewrite Hlogs, sources_loop_app, Hsb. cbn [bind].
  change (s :: sa) with ([s] ++ sa).
  rewrite sources_loop_app.
  destruct (sources_loop_one s acc1) as (Hone & _).
  rewrite (Hone e Hfail). by eexists.
Qed.

(** A panic while a file is loaded is a panic of the pass. *)
Lemma files_loop_crash (ddconfdPath file : string) (before after : list string)
    (acc acc0 : list IntegrationConfigLogSource.t) :
  files_loop ddconfdPath before acc = Return (acc0, None) ->
  filePanics ddconfdPath file acc0 ->
  files_loop ddconfdPath (before ++ file :: after) acc = Panic.
Proof.
  intros Hbefore (cfg & sb & s & sa & acc1 & Hparse & Hlogs & Hsb & Hpanic).
  rewrite files_loop_app, Hbefore. cbn [bind].
  rewrite files_loop_cons, Hparse, Hlogs, sources_loop_app, Hsb. cbn [bind].
  change (s :: sa) with ([s] ++ sa).
  rewrite sources_loop_app.
  destruct (sources_loop_one s acc1) as (_ & Hone & _).
  by rewrite (Hone Hpanic).
Qed.

Lemma registered_declared (s s' : IntegrationConfigLogSource.t) :
  registered s s' -> declared s' = declared s.
Proof. by intros (_ & rules & _ & ->). Qed.

Lemma registered_all_declared (l l' : list IntegrationConfigLogSource.t) :
  Forall2 registered l l' -> declared <$> l' = declared <$> l.
Proof.
  induction 1 as [|s s' l l' Hreg _ IH]; [reflexivity|].
  rewrite !fmap_cons. f_equal; [by apply registered_declared | exact IH].
Qed.

Lemma checkRule_malformed_pattern (rule : LogsProcessingRule.t) (e : error) :
  LogsProcessingRule.Name rule <> "" ->
  LogsProcessingRule.Type_ rule = EXCLUDE_AT_MATCH
  \/ LogsProcessingRule.Type_ rule = MASK_SEQUENCES ->
  Compile (LogsProcessingRule.Pattern rule) = inr e ->
  checkRule rule = Panic.
Proof.
  intros Hname Htype Hre. unfold checkRule, MustCompile.
  rewrite decide_False by assumption. rewrite Hre.
  destruct Htype as [Ht|Ht].
  - by rewrite decide_True by assumption.
  - rewrite Ht. rewrite decide_False by discriminate.
    by rewrite decide_True by reflexivity.
Qed.

(** C2. A rule of type exclude_at_match or mask_sequences whose pattern
    does not compile: [validateProcessingRules] does not return an error,
    it panics, and the panic is the outcome of the whole load. The rules
    before it pass, and so do the sources and files before its own. *)
Theorem validateProcessingRules_malformed_pattern_panics
    (before after : list LogsProcessingRule.t) (rule : LogsProcessingRule.t) (e : error) :
  Forall ruleAccepted before ->
  LogsProcessingRule.Name rule <> "" ->
  LogsProcessingRule.Type_ rule = EXCLUDE_AT_MATCH
  \/ LogsProcessingRule.Type_ rule = MASK_SEQUENCES ->
  Compile (LogsProcessingRule.Pattern rule) = inr e ->
  validateProcessingRules (before ++ rule :: after) = Panic
  /\ forall (config : viper.Viper) (ddconfdPath file : string) (fb fa : list string)
       (cfg : IntegrationConfig) (s : IntegrationConfigLogSource.t)
       (sb sa acc acc' : list IntegrationConfigLogSource.t),
       IntegrationConfigLogSource.ProcessingRules s = before ++ rule :: after ->
       validateSource s = None ->
       availableIntegrationConfigs ddconfdPath = fb ++ file :: fa ->
       files_loop ddconfdPath fb [] = Return (acc, None) ->
       parseFile ddconfdPath file = inl cfg ->
       Logs cfg = sb ++ s :: sa ->
       sources_loop sb acc = Return (acc', None) ->
       buildLogsAgentIntegrationsConfig config ddconfdPath = Panic.
Proof.
  intros Hbefore Hname Htype Hre.
  assert (validateProcessingRules (before ++ rule :: after) = Panic) as Hpanic.
  { apply validateProcessingRules_first_rejected; [exact Hbefore|].
    by apply (checkRule_malformed_pattern rule e). }
  split; [exact Hpanic|].
  intros config ddconfdPath file fb fa cfg s sb sa acc acc'
    Hrules Hvalid Hfiles Hfb Hparse Hlogs Hsb.
  unfold buildLogsAgentIntegrationsConfig. cbv zeta.
  rewrite Hfiles, (files_loop_crash _ _ _ _ _ acc Hfb); [reflexivity|].
  exists cfg, sb, s, sa, acc'. repeat split; try assumption.
  by rewrite Hrules.
Qed.

Lemma err_type_messages_differ (type name : string) :
  errTypeMissing name <> errTypeUnsupported type name.
Proof.
  intros Heq. apply (f_equal String.length) in Heq.
  unfold errTypeMissing, errTypeUnsupported in Heq.
  rewrite !length_append in Heq. simpl in Heq. lia.
Qed.

(** A sequence with a rule whose name is empty, or whose type is
    neither exclude_at_match nor mask_sequences, is never accepted. The
    loop returns the error of the first rule that does not pass, the rules
    before it being accepted: the name error when its name is empty,
    whatever its type; otherwise, when its type is not one of the two, the
    message that the type must be set when the type is empty and the
    message that the type is unsupported when it is not. The two messages
    differ. *)
Theorem validateProcessingRules_first_offender
    (before after : list LogsProcessingRule.t) (rule : LogsProcessingRule.t) :
  (ruleOffends rule ->
   forall rules', validateProcessingRules (before ++ rule :: after) <> Return (rules', None))
  /\ (Forall ruleAccepted before ->
      (LogsProcessingRule.Name rule = "" ->
       validateProcessingRules (before ++ rule :: after)
       = Return ([], Some errNameMissing))
      /\ (LogsProcessingRule.Name rule <> "" ->
          LogsProcessingRule.Type_ rule = "" ->
          validateProcessingRules (before ++ rule :: after)
          = Return ([], Some (errTypeMissing (LogsProcessingRule.Name rule))))
      /\ (LogsProcessingRule.Name rule <> "" ->
          LogsProcessingRule.Type_ rule <> "" ->
          LogsProcessingRule.Type_ rule <> EXCLUDE_AT_MATCH ->
          LogsProcessingRule.Type_ rule <> MASK_SEQUENCES ->
          validateProcessingRules (before ++ rule :: after)
          = Return ([], Some (errTypeUnsupported (LogsProcessingRule.Type_ rule)
                                                 (LogsProcessingRule.Name rule)))))
  /\ errTypeMissing (LogsProcessingRule.Name rule)
     <> errTypeUnsupported (LogsProcessingRule.Type_ rule) (LogsProcessingRule.Name rule).
Proof.
  split; [|split].
  - intros Hoffends rules'. rewrite validateProcessingRules_checkRules. intros Hok.
    destruct (checkRules (before ++ rule :: after)) as [[checked|err]|] eqn:Hchecked;
      cbn [bind] in Hok; try discriminate Hok.
    apply checkRules_kept in Hchecked.
    rewrite Forall_app, Forall_cons in Hchecked.
    by destruct Hchecked as (_ & Hrule & _).
  - intros Hbefore.
    destruct (validateProcessingRules_first_rejected before after rule Hbefore)
      as [Hrejected _].
    split; [|split].
    + intros Hname. apply Hrejected. unfold checkRule.
      by rewrite decide_True by assumption.
    + intros Hname Htype. apply Hrejected. unfold checkRule.
      rewrite decide_False by assumption. rewrite Htype.
      rewrite !decide_False by discriminate.
      by rewrite decide_True by reflexivity.
    + intros Hname Htype Hexcl Hmask. apply Hrejected. unfold checkRule.
      by rewrite !decide_False by assumption.
  - apply err_type_messages_differ.
Qed.

(** C10. When [validateProcessingRules] succeeds, the rules returned are
    as many as the rules given and in the same order; the type, name,
    pattern and placeholder of every rule are unchanged, and the
    placeholder bytes are written for the mask_sequences rules only. *)
Theorem validateProcessingRules_frame (rules rules' : list LogsProcessingRule.t) :
  validateProcessingRules rules = Return (rules', None) ->
  length rules' = length rules /\ Forall2 ruleFrame rules rules'.
Proof.
  rewrite validateProcessingRules_checkRules. intros Hrules.
  destruct (checkRules rules) as [[checked|err]|] eqn:Hchecked;
    cbn [bind] in Hrules; try discriminate Hrules.
  injection Hrules as <-.
  apply checkRules_frame in Hchecked.
  split; [symmetry; by eapply Forall2_length | exact Hchecked].
Qed.

(** C4. When the load returns an error, the settings store is the one it
    was given: the slot of the sources is not written. The error is that
    of the first file that fails, after files that were all loaded: a
    file that cannot be parsed, or the first source of the file that is
    rejected for itself or for its rules. The files after it play no
    part. *)
Theorem load_error_leaves_registry
    (config config' : viper.Viper) (ddconfdPath : string) (e : error) :
  buildLogsAgentIntegrationsConfig config ddconfdPath = Return (config', Some e) ->
  config' = config
  /\ viper.Get LOGS_RULES config' = viper.Get LOGS_RULES config
  /\ exists before file after acc,
       availableIntegrationConfigs ddconfdPath = before ++ file :: after
       /\ files_loop ddconfdPath before [] = Return (acc, None)
       /\ fileFails ddconfdPath file acc e
       /\ forall after',
            exists acc',
              files_loop ddconfdPath (before ++ file :: after') [] = Return (acc', Some e).
Proof.
  unfold buildLogsAgentIntegrationsConfig. cbv zeta. intros Hload.
  destruct (files_loop ddconfdPath (availableIntegrationConfigs ddconfdPath) [])
    as [[acc1 [err|]]|] eqn:Hloop; cbn [bind] in Hload; try discriminate Hload.
  injection Hload as <- <-.
  split; [reflexivity|]. split; [reflexivity|].
  apply files_loop_err in Hloop as (before & file & after & acc & Hfiles & Hbefore & Hfail).
  exists before, file, after, acc. repeat split; try assumption.
  intros after'. by apply (files_loop_abort _ _ _ _ _ acc).
Qed.

(** C5. When the load succeeds, the slot of the sources holds one entry
    for every source of every discovered file, the files in the order of
    discovery and the sources of a file in the order of their
    declaration: each entry is its source with the validated rules and
    the tags payload filled in. *)
Theorem load_success_registry (config config' : viper.Viper) (ddconfdPath : string) :
  buildLogsAgentIntegrationsConfig config ddconfdPath = Return (config', None) ->
  exists cfgs stored,
    Forall2 (fun file cfg => parseFile ddconfdPath file = inl cfg)
            (availableIntegrationConfigs ddconfdPath) cfgs
    /\ Forall2 registered (concat (Logs <$> cfgs)) stored
    /\ declared <$> stored = declared <$> concat (Logs <$> cfgs)
    /\ config' = viper.Set_ LOGS_RULES (viper.Sources stored) config
    /\ getLogsSources config' = Return stored.
Proof.
  unfold buildLogsAgentIntegrationsConfig. cbv zeta. intros Hload.
  destruct (files_loop ddconfdPath (availableIntegrationConfigs ddconfdPath) [])
    as [[acc1 [err|]]|] eqn:Hloop; cbn [bind] in Hload; try discriminate Hload.
  injection Hload as <-.
  apply files_loop_ok in Hloop as (cfgs & stored & Hparsed & -> & Hreg).
  exists cfgs, stored. cbn [app].
  split; [exact Hparsed|]. split; [exact Hreg|].
  split; [by apply registered_all_declared|]. split; [reflexivity|].
  unfold getLogsSources, viper.Get, viper.Set_. by rewrite lookup_insert_eq.
Qed.
End Load.

(** * The properties on the concrete environment *)

Ltac accepted :=
  repeat first
    [ apply Forall_nil_2
    | apply Forall_cons_2
    | split; [by vm_compute | split; [first [by left | by right] | by eexists]] ].

Lemma validateProcessingRules_malformed_pattern_panics_witness :
  validateProcessingRules (H := Fixture.env)
    [Fixture.dropDebug; Fixture.broken; Fixture.unnamed] = Panic
  /\ buildLogsAgentIntegrationsConfig (H := Fixture.env) ∅ Fixture.crashing = Panic.
Proof.
  destruct (validateProcessingRules_malformed_pattern_panics (H := Fixture.env)
              [Fixture.dropDebug] [Fixture.unnamed] Fixture.broken
              "error parsing regexp: unmatched parenthesis: `(`")
    as [Hrules Hload].
  - accepted.
  - discriminate.
  - by left.
  - reflexivity.
  - split; [exact Hrules|].
    eapply (Hload ∅ Fixture.crashing "x" ["a"] [] _ Fixture.badRules [Fixture.s3] []);
      reflexivity.
Defined.

Lemma validateProcessingRules_first_offender_witness :
  validateProcessingRules (H := Fixture.env)
    [Fixture.dropDebug; Fixture.maskCards; Fixture.unnamed; Fixture.broken]
  = Return ([], Some errNameMissing)
  /\ validateProcessingRules (H := Fixture.env) [Fixture.dropDebug; Fixture.untyped]
     = Return ([], Some (errTypeMissing "no_type"))
  /\ validateProcessingRules (H := Fixture.env)
       [Fixture.dropDebug; Fixture.oddType; Fixture.unnamed]
     = Return ([], Some (errTypeUnsupported "include_at_match" "odd")).
Proof.
  split; [|split].
  - apply (validateProcessingRules_first_offender (H := Fixture.env)
             [Fixture.dropDebug; Fixture.maskCards] [Fixture.broken] Fixture.unnamed);
      [accepted | reflexivity].
  - apply (validateProcessingRules_first_offender (H := Fixture.env)
             [Fixture.dropDebug] [] Fixture.untyped);
      [accepted | discriminate | reflexivity].
  - apply (validateProcessingRules_first_offender (H := Fixture.env)
             [Fixture.dropDebug] [Fixture.unnamed] Fixture.oddType);
      [accepted | discriminate..].
Defined.

Lemma validateProcessingRules_frame_witness :
  length Fixture.validated = length [Fixture.dropDebug; Fixture.maskCards]
  /\ Forall2 ruleFrame [Fixture.dropDebug; Fixture.maskCards] Fixture.validated.
Proof.
  apply (validateProcessingRules_frame (H := Fixture.env)). reflexivity.
Defined.

Lemma validateSource_any_nonzero_port_witness :
  validateSource
    (IntegrationConfigLogSource.mk TCP_TYPE (-1) "" "" "" "" "" "" [] []) = None
  /\ validateSource
       (IntegrationConfigLogSource.mk UDP_TYPE 70000 "" "" "" "" "" "" [] []) = None.
Proof.
  split; apply validateSource_any_nonzero_port; simpl;
    first [by left | by right | discriminate].
Defined.

Lemma listing_failure_is_silent_witness :
  availableIntegrationConfigs (H := Fixture.env) Fixture.missing = []
  /\ buildLogsAgentIntegrationsConfig (H := Fixture.env) ∅ Fixture.missing
     = Return (viper.Set_ LOGS_RULES (viper.Sources []) ∅, None)
  /\ getLogsSources (viper.Set_ LOGS_RULES (viper.Sources []) ∅) = Return [].
Proof.
  apply (listing_failure_is_silent (H := Fixture.env) ∅ Fixture.missing
           "open /etc/dd-agent/missing.d: no such file or directory").
  reflexivity.
Defined.

Lemma load_error_leaves_registry_witness :
  (∅ : viper.Viper) = ∅
  /\ viper.Get LOGS_RULES (∅ : viper.Viper) = viper.Get LOGS_RULES (∅ : viper.Viper)
  /\ exists before file after acc,
       availableIntegrationConfigs (H := Fixture.env) Fixture.faulty
       = before ++ file :: after
       /\ files_loop (H := Fixture.env) Fixture.faulty before [] = Return (acc, None)
       /\ fileFails (H := Fixture.env) Fixture.faulty file acc "A file source must have a path"
       /\ forall after',
            exists acc',
              files_loop (H := Fixture.env) Fixture.faulty (before ++ file :: after') []
              = Return (acc', Some "A file source must have a path").
Proof.
  apply (load_error_leaves_registry (H := Fixture.env) ∅ ∅ Fixture.faulty).
  vm_compute. reflexivity.
Defined.

Lemma load_success_registry_witness :
  exists cfgs stored,
    Forall2 (fun file cfg => parseFile (H := Fixture.env) Fixture.confd file = inl cfg)
            (availableIntegrationConfigs (H := Fixture.env) Fixture.confd) cfgs
    /\ Forall2 (registered (H := Fixture.env)) (concat (Logs <$> cfgs)) stored
    /\ declared <$> stored = declared <$> concat (Logs <$> cfgs)
    /\ viper.Set_ LOGS_RULES (viper.Sources Fixture.stored) ∅
       = viper.Set_ LOGS_RULES (viper.Sources stored) ∅
    /\ getLogsSources (viper.Set_ LOGS_RULES (viper.Sources Fixture.stored) ∅)
       = Return stored.
Proof.
  apply (load_success_registry (H := Fixture.env) ∅ _ Fixture.confd).
  vm_compute. reflexivity.
Defined.

(** The example of the specification: file A with the sources s1 and s2,
    then file B with the source s3, give s1, s2, s3 in this order. *)
Example load_order_example :
  availableIntegrationConfigs (H := Fixture.env) Fixture.confd = ["nginx"; "syslog"]
  /\ parseFile (H := Fixture.env) Fixture.confd "nginx"
     = inl (mkIntegrationConfig [Fixture.s1; Fixture.s2])
  /\ parseFile (H := Fixture.env) Fixture.confd "syslog"
     = inl (mkIntegrationConfig [Fixture.s3])
  /\ buildLogsAgentIntegrationsConfig (H := Fixture.env) ∅ Fixture.confd
     = Return (viper.Set_ LOGS_RULES (viper.Sources Fixture.stored) ∅, None)
  /\ declared <$> Fixture.stored = declared <$> [Fixture.s1; Fixture.s2; Fixture.s3].
Proof. repeat split; vm_compute; reflexivity. Qed.

(** * Further properties *)

(** ** The verdicts of the rule loop *)

Section RuleVerdicts.
Context `{Env}.

(** The three verdicts on one rule. *)
Lemma checkRule_cases (rule : LogsProcessingRule.t) :
  (ruleAccepted rule /\ exists rule', checkRule rule = Return (inl rule'))
  \/ (ruleOffends rule /\ checkRule rule = Return (inr (ruleError rule)))
  \/ (ruleMalformed rule /\ checkRule rule = Panic).
Proof.
  unfold checkRule, ruleAccepted, ruleOffends, ruleMalformed, ruleError, supportedType,
    MustCompile.
  destruct (decide (LogsProcessingRule.Name rule = "")) as [Hname|Hname];
    [right; left; by split; [left|] |].
  destruct (decide (LogsProcessingRule.Type_ rule = EXCLUDE_AT_MATCH)) as [Hexcl|Hexcl].
  { destruct (Compile (LogsProcessingRule.Pattern rule)) as [re|e]; cbn [bind].
    - left. split; [|by eexists]. split; [done|]. split; [by left | by eexists].
    - right; right. split; [|done]. split; [done|]. split; [by left | by eexists]. }
  destruct (decide (LogsProcessingRule.Type_ rule = MASK_SEQUENCES)) as [Hmask|Hmask].
  { destruct (Compile (LogsProcessingRule.Pattern rule)) as [re|e]; cbn [bind].
    - left. split; [|by eexists]. split; [done|]. split; [by right | by eexists].
    - right; right. split; [|done]. split; [done|]. split; [by right | by eexists]. }
  right; left. split; [by right|]. by destruct (decide (LogsProcessingRule.Type_ rule = "")).
Qed.

Lemma checkRule_offends (rule : LogsProcessingRule.t) :
  ruleOffends rule -> checkRule rule = Return (inr (ruleError rule)).
Proof.
  unfold checkRule, ruleOffends, ruleError. intros Hoff.
  repeat case_decide; try reflexivity; exfalso; destruct Hoff as [?|[? ?]]; done.
Qed.

Lemma checkRule_malformed (rule : LogsProcessingRule.t) :
  ruleMalformed rule -> checkRule rule = Panic.
Proof.
  intros (Hname & Htype & e & He). by apply (checkRule_malformed_pattern rule e).
Qed.

(** The three verdicts on a sequence of rules. *)
Lemma checkRules_cases (rules : list LogsProcessingRule.t) :
  (Forall ruleAccepted rules /\ exists rules', checkRules rules = Return (inl rules'))
  \/ (exists before rule after,
        rules = before ++ rule :: after /\ Forall ruleAccepted before
        /\ ruleOffends rule /\ checkRules rules = Return (inr (ruleError rule)))
  \/ (exists before rule after,
        rules = before ++ rule :: after /\ Forall ruleAccepted before
        /\ ruleMalformed rule /\ checkRules rules = Panic).
Proof.
  induction rules as [|rule rules IH].
  - left. split; [constructor | by eexists].
  - cbn [checkRules].
    destruct (checkRule_cases rule)
      as [(Hacc & rule' & ->)|[(Hoff & ->)|(Hmal & ->)]]; cbn [bind].
    + destruct IH as [(Hall & rules' & ->)
                     |[(before & r & after & -> & Hbefore & Hoff & ->)
                      |(before & r & after & -> & Hbefore & Hmal & ->)]]; cbn [bind].
      * left. split; [by constructor | by eexists].
      * right; left. exists (rule :: before), r, after.
        split; [done|]. split; [by constructor | done].
      * right; right. exists (rule :: before), r, after.
        split; [done|]. split; [by constructor | done].
    + right; left. exists [], rule, rules. split; [done|]. split; [constructor | done].
    + right; right. exists [], rule, rules. split; [done|]. split; [constructor | done].
Qed.

Lemma checkRule_compiled (rule rule' : LogsProcessingRule.t) :
  checkRule rule = Return (inl rule') -> ruleCompiled rule'.
Proof.
  unfold checkRule, ruleCompiled, supportedType, MustCompile. intros Hrule.
  repeat case_decide; try discriminate Hrule;
    destruct (Compile (LogsProcessingRule.Pattern rule)) as [re|] eqn:Hre;
    try discriminate Hrule; cbn [bind] in Hrule;
    injection Hrule as <-; cbn; (split; [done|]);
    (split; [first [by left | by right] | by exists re]).
Qed.

Lemma checkRule_again (rule rule' : LogsProcessingRule.t) :
  checkRule rule = Return (inl rule') -> checkRule rule' = Return (inl rule').
Proof.
  intros Hrule. unfold checkRule, MustCompile in Hrule.
  destruct (decide (LogsProcessingRule.Name rule = "")) as [|Hname];
    [discriminate Hrule|].
  destruct (decide (LogsProcessingRule.Type_ rule = EXCLUDE_AT_MATCH)) as [Hexcl|Hexcl].
  { destruct (Compile (LogsProcessingRule.Pattern rule)) as [re|] eqn:Hre;
      [|discriminate Hrule].
    cbn [bind] in Hrule. injection Hrule as <-.
    unfold checkRule, MustCompile. cbn.
    rewrite decide_False by assumption. rewrite decide_True by assumption.
    by rewrite Hre. }
  destruct (decide (LogsProcessingRule.Type_ rule = MASK_SEQUENCES)) as [Hmask|Hmask].
  { destruct (Compile (LogsProcessingRule.Pattern rule)) as [re|] eqn:Hre;
      [|discriminate Hrule].
    cbn [bind] in Hrule. injection Hrule as <-.
    unfold checkRule, MustCompile. cbn.
    rewrite !decide_False by assumption. rewrite decide_True by assumption.
    by rewrite Hre. }
  by destruct (decide (LogsProcessingRule.Type_ rule = "")).
Qed.
End RuleVerdicts.

(** ** What the validation of the rules returns *)

Section RuleProperties.
Context `{Env}.

(** X1. The validation of the rules succeeds exactly on the sequences whose
    rules are all accepted: each has a name, a supported type and a pattern
    that compiles. *)
Theorem validateProcessingRules_succeeds_iff (rules : list LogsProcessingRule.t) :
  (exists rules', validateProcessingRules rules = Return (rules', None))
  <-> Forall ruleAccepted rules.
Proof.
  rewrite validateProcessingRules_checkRules. split.
  - intros (rules' & Hok).
    destruct (checkRules_cases rules)
      as [(Hall & _)|[(? & ? & ? & _ & _ & _ & Hr)|(? & ? & ? & _ & _ & _ & Hr)]];
      [exact Hall | rewrite Hr in Hok; discriminate Hok..].
  - intros Hall.
    destruct (checkRules_accepted_prefix rules Hall) as (rules' & Hpre).
    specialize (Hpre []). rewrite app_nil_r in Hpre.
    rewrite Hpre. cbn [checkRules bind]. by eexists.
Qed.

(** X2. The validation of the rules returns an error exactly when some rule
    fails the check of its name or of its type after rules that are all
    accepted; the error is the message of that rule, and the slice returned
    with it is nil. *)
Theorem validateProcessingRules_error_iff
    (rules rules' : list LogsProcessingRule.t) (e : error) :
  validateProcessingRules rules = Return (rules', Some e)
  <-> (rules' = []
       /\ exists before rule after,
            rules = before ++ rule :: after
            /\ Forall ruleAccepted before
            /\ ruleOffends rule
            /\ e = ruleError rule).
Proof.
  split.
  - rewrite validateProcessingRules_checkRules. intros Herr.
    destruct (checkRules_cases rules)
      as [(_ & ? & Hr)|[(before & rule & after & Hsplit & Hbefore & Hoff & Hr)
                       |(? & ? & ? & _ & _ & _ & Hr)]];
      rewrite Hr in Herr; cbn [bind] in Herr; try discriminate Herr.
    injection Herr as <- <-. split; [reflexivity|].
    by exists before, rule, after.
  - intros (-> & before & rule & after & -> & Hbefore & Hoff & ->).
    apply validateProcessingRules_first_rejected; [exact Hbefore|].
    by apply checkRule_offends.
Qed.

(** X3. The validation of the rules panics exactly when some rule with a
    name and a supported type has a pattern that does not compile, after
    rules that are all accepted. *)
Theorem validateProcessingRules_panics_iff (rules : list LogsProcessingRule.t) :
  validateProcessingRules rules = Panic
  <-> exists before rule after,
        rules = before ++ rule :: after
        /\ Forall ruleAccepted before
        /\ ruleMalformed rule.
Proof.
  split.
  - rewrite validateProcessingRules_checkRules. intros Hpanic.
    destruct (checkRules_cases rules)
      as [(_ & ? & Hr)|[(? & ? & ? & _ & _ & _ & Hr)
                       |(before & rule & after & Hsplit & Hbefore & Hmal & Hr)]];
      rewrite Hr in Hpanic; cbn [bind] in Hpanic; try discriminate Hpanic.
    by exists before, rule, after.
  - intros (before & rule & after & -> & Hbefore & Hmal).
    apply validateProcessingRules_first_rejected; [exact Hbefore|].
    by apply checkRule_malformed.
Qed.

(** C6. A rule whose name is empty, or whose type is neither
    exclude_at_match nor mask_sequences, does not get its error when a rule
    before it has a pattern that does not compile: the loop panics at that
    earlier rule and returns no error at all. *)
Theorem validateProcessingRules_offender_behind_malformed_pattern
    (before between after : list LogsProcessingRule.t) (bad rule : LogsProcessingRule.t) :
  Forall ruleAccepted before ->
  ruleMalformed bad ->
  ruleOffends rule ->
  validateProcessingRules (before ++ bad :: between ++ rule :: after) = Panic
  /\ forall rules' e,
       validateProcessingRules (before ++ bad :: between ++ rule :: after)
       <> Return (rules', Some e).
Proof.
  intros Hbefore Hbad _.
  assert (validateProcessingRules (before ++ bad :: between ++ rule :: after) = Panic)
    as Hpanic.
  { apply validateProcessingRules_first_rejected; [exact Hbefore|].
    by apply checkRule_malformed. }
  split; [exact Hpanic|]. intros rules' e. by rewrite Hpanic.
Qed.

Lemma checkRules_compiled (rules rules' : list LogsProcessingRule.t) :
  checkRules rules = Return (inl rules') -> Forall ruleCompiled rules'.
Proof.
  revert rules'. induction rules as [|rule rules IH]; intros rules' Hrules.
  - injection Hrules as <-. constructor.
  - cbn [checkRules] in Hrules.
    destruct (checkRule rule) as [[rule'|err]|] eqn:Hrule; try discriminate Hrules.
    cbn [bind] in Hrules.
    destruct (checkRules rules) as [[rest|err]|]; try discriminate Hrules.
    cbn [bind] in Hrules. injection Hrules as <-.
    constructor; [by eapply checkRule_compiled | by apply IH].
Qed.

Lemma checkRules_again (rules rules' : list LogsProcessingRule.t) :
  checkRules rules = Return (inl rules') -> checkRules rules' = Return (inl rules').
Proof.
  revert rules'. induction rules as [|rule rules IH]; intros rules' Hrules.
  - by injection Hrules as <-.
  - cbn [checkRules] in Hrules.
    destruct (checkRule rule) as [[rule'|err]|] eqn:Hrule; try discriminate Hrules.
    cbn [bind] in Hrules.
    destruct (checkRules rules) as [[rest|err]|]; try discriminate Hrules.
    cbn [bind] in Hrules. injection Hrules as <-.
    cbn [checkRules]. rewrite (checkRule_again _ _ Hrule). cbn [bind].
    by rewrite (IH rest).
Qed.

Lemma validateProcessingRules_ok_inv (rules rules' : list LogsProcessingRule.t) :
  validateProcessingRules rules = Return (rules', None) ->
  checkRules rules = Return (inl rules').
Proof.
  rewrite validateProcessingRules_checkRules. intros Hok.
  destruct (checkRules rules) as [[checked|err]|]; cbn [bind] in Hok;
    try discriminate Hok.
  by injection Hok as <-.
Qed.

(** X4. Every rule returned by a successful validation holds the compiled
    form of its own pattern, and has a name and a supported type. *)
Theorem validateProcessingRules_compiles_patterns (rules rules' : list LogsProcessingRule.t) :
  validateProcessingRules rules = Return (rules', None) ->
  Forall ruleCompiled rules'.
Proof.
  intros Hok. apply validateProcessingRules_ok_inv in Hok.
  by eapply checkRules_compiled.
Qed.

(** X5. Validating again the rules returned by a successful validation
    succeeds and returns them unchanged. *)
Theorem validateProcessingRules_idempotent (rules rules' : list LogsProcessingRule.t) :
  validateProcessingRules rules = Return (rules', None) ->
  validateProcessingRules rules' = Return (rules', None).
Proof.
  intros Hok. apply validateProcessingRules_ok_inv in Hok.
  rewrite validateProcessingRules_checkRules.
  by rewrite (checkRules_again _ _ Hok).
Qed.
End RuleProperties.

(** ** The shape of the tags payload *)

Lemma buildTagsPayload_text (tags source sourceCategory : string) :
  buildTagsPayload tags source sourceCategory
  = if decide (tagsText tags source sourceCategory = "")
    then [byte_of_ascii "-"%char]
    else bytes (tagsText tags source sourceCategory).
Proof.
  unfold buildTagsPayload.
  rewrite !append_annotation, app_nil_l, <- !bytes_app.
  fold (tagsAnnotation "[dd ddsource=" source).
  fold (tagsAnnotation "[dd ddsourcecategory=" sourceCategory).
  fold (tagsAnnotation "[dd ddtags=" tags).
  rewrite append_assoc.
  fold (tagsText tags source sourceCategory).
  rewrite length_bytes.
  destruct (tagsText tags source sourceCategory) as [|c text]; reflexivity.
Qed.

(** A text made of annotations is empty or starts with an opening bracket. *)
Lemma tagsText_head (tags source sourceCategory : string) :
  (source = "" /\ sourceCategory = "" /\ tags = ""
   /\ tagsText tags source sourceCategory = "")
  \/ exists rest, tagsText tags source sourceCategory = String "["%char rest.
Proof.
  unfold tagsText, tagsAnnotation.
  destruct (decide (source = "")) as [->|_]; [|right; by eexists].
  destruct (decide (sourceCategory = "")) as [->|_]; [|right; by eexists].
  destruct (decide (tags = "")) as [->|_]; [|right; by eexists].
  by left.
Qed.

(** X6. The payload is never empty, and it is the single byte '-' exactly
    when the source, the source category and the tags are all empty:
    otherwise it starts with an opening bracket. *)
Theorem buildTagsPayload_sentinel (tags source sourceCategory : string) :
  buildTagsPayload tags source sourceCategory <> []
  /\ (buildTagsPayload tags source sourceCategory = [byte_of_ascii "-"%char]
      <-> source = "" /\ sourceCategory = "" /\ tags = "")
  /\ (buildTagsPayload tags source sourceCategory = [byte_of_ascii "-"%char]
      \/ exists rest,
           buildTagsPayload tags source sourceCategory = byte_of_ascii "["%char :: rest).
Proof.
  rewrite buildTagsPayload_text.
  destruct (tagsText_head tags source sourceCategory)
    as [(-> & -> & -> & ->)|(rest & Htext)].
  - rewrite decide_True by reflexivity. split; [discriminate|]. split; [done | by left].
  - rewrite Htext. rewrite decide_False by discriminate. rewrite bytes_cons.
    split; [discriminate|]. split; [|right; by eexists].
    split; [discriminate|].
    intros (-> & -> & ->). discriminate Htext.
Qed.

(** X7. The values are copied as they are, quotes and brackets included: a
    source that holds the text closing its annotation and opening the one of
    a source category gives the payload of the shorter source with that
    category. *)
Theorem buildTagsPayload_copies_values (tags source sourceCategory : string) :
  source <> "" ->
  sourceCategory <> "" ->
  buildTagsPayload tags
    (source +:+ dquote +:+ "][dd ddsourcecategory=" +:+ dquote +:+ sourceCategory) ""
  = buildTagsPayload tags source sourceCategory.
Proof.
  intros Hsource Hcategory.
  assert (tagsText tags
            (source +:+ dquote +:+ "][dd ddsourcecategory=" +:+ dquote +:+ sourceCategory) ""
          = tagsText tags source sourceCategory) as Htext.
  { unfold tagsText, tagsAnnotation.
    rewrite (decide_True (P := "" = "")) by reflexivity.
    rewrite (decide_False (P := source = "")) by assumption.
    rewrite (decide_False (P := sourceCategory = "")) by assumption.
    rewrite decide_False by (destruct source; [done | discriminate]).
    by rewrite !append_assoc. }
  by rewrite !buildTagsPayload_text, Htext.
Qed.

(** ** More on discovery *)

Section DiscoveryProperties.
Context `{Env}.

Lemma availableIntegrationConfigs_filter (ddconfdPath : string) :
  availableIntegrationConfigs ddconfdPath
  = stripExt <$> filter candidate (listing ddconfdPath).
Proof. exact (discovery_loop (listing ddconfdPath) []). Qed.

(** X8. The slice that strips the extension is always in range: the
    extension is no longer than the file name, and the name kept, followed
    by the extension, is the file name. *)
Theorem stripExt_in_range (filename : string) :
  String.length (filepath.Ext filename) <= String.length filename
  /\ String.length (stripExt filename)
     = String.length filename - String.length (filepath.Ext filename)
  /\ stripExt filename +:+ filepath.Ext filename = filename.
Proof.
  destruct (stripExt_Ext filename) as [Hle Hsplit].
  split; [exact Hle|]. split; [|exact Hsplit].
  apply (f_equal String.length) in Hsplit.
  rewrite length_append in Hsplit. lia.
Qed.

(** X9. When the listing has no entry twice, discovery returns no name
    twice: two different candidate entries never give the same name. *)
Theorem availableIntegrationConfigs_NoDup (ddconfdPath : string) :
  NoDup (listing ddconfdPath) -> NoDup (availableIntegrationConfigs ddconfdPath).
Proof.
  intros Hnodup. rewrite availableIntegrationConfigs_filter.
  apply NoDup_fmap_2_strong; [|by apply NoDup_filter].
  intros x y [[Hx _] _]%list_elem_of_filter [[Hy _] _]%list_elem_of_filter Heq.
  destruct (stripExt_Ext x) as [_ Hsx]. destruct (stripExt_Ext y) as [_ Hsy].
  rewrite <- Hsx, <- Hsy, Hx, Hy. by rewrite Heq.
Qed.
End DiscoveryProperties.

(** ** More on the load *)

Section LoadProperties.
Context `{Env}.

(** The load in terms of the pass over the files. *)
Lemma buildLogsAgentIntegrationsConfig_unfold (config : viper.Viper) (ddconfdPath : string) :
  buildLogsAgentIntegrationsConfig config ddconfdPath
  = match files_loop ddconfdPath (availableIntegrationConfigs ddconfdPath) [] with
    | Return (_, Some err) => Return (config, Some err)
    | Return (stored, None) =>
        Return (viper.Set_ LOGS_RULES (viper.Sources stored) config, None)
    | Panic => Panic
    end.
Proof.
  unfold buildLogsAgentIntegrationsConfig. cbv zeta.
  by destruct (files_loop _ _ _) as [[stored [err|]]|].
Qed.

Lemma accepted_validates (rules : list LogsProcessingRule.t) :
  Forall ruleAccepted rules ->
  exists rules', validateProcessingRules rules = Return (rules', None).
Proof.
  intros Hall. rewrite validateProcessingRules_checkRules.
  destruct (checkRules_accepted_prefix rules Hall) as (rules' & Hpre).
  specialize (Hpre []). rewrite app_nil_r in Hpre.
  rewrite Hpre. cbn [checkRules bind]. by eexists.
Qed.

Lemma validates_accepted (rules rules' : list LogsProcessingRule.t) :
  validateProcessingRules rules = Return (rules', None) -> Forall ruleAccepted rules.
Proof.
  rewrite validateProcessingRules_checkRules. intros Hok.
  destruct (checkRules_cases rules)
    as [(Hall & _)|[(? & ? & ? & _ & _ & _ & Hr)|(? & ? & ? & _ & _ & _ & Hr)]];
    [exact Hall | rewrite Hr in Hok; discriminate Hok..].
Qed.

Lemma registered_accepted (s s' : IntegrationConfigLogSource.t) :
  registered s s' -> sourceAccepted s.
Proof.
  intros (Hvalid & rules & Hrules & _). split; [exact Hvalid|].
  by eapply validates_accepted.
Qed.

Lemma accepted_registered (s : IntegrationConfigLogSource.t) :
  sourceAccepted s -> exists s', registered s s'.
Proof.
  intros (Hvalid & Hrules).
  destruct (accepted_validates _ Hrules) as (rules & Hok).
  eexists. split; [exact Hvalid|]. exists rules. split; [exact Hok | reflexivity].
Qed.

Lemma sources_loop_all (logs stored acc : list IntegrationConfigLogSource.t) :
  Forall2 registered logs stored ->
  sources_loop logs acc = Return (acc ++ stored, None).
Proof.
  intros Hall. revert acc.
  induction Hall as [|s s' logs stored Hreg _ IH]; intros acc.
  - by rewrite app_nil_r.
  - change (s :: logs) with ([s] ++ logs).
    rewrite sources_loop_app.
    destruct (sources_loop_one s acc) as (_ & _ & Hone).
    rewrite (Hone s' Hreg). cbn [bind].
    by rewrite IH, <- app_assoc.
Qed.

Lemma files_loop_all (ddconfdPath : string) (files : list string)
    (cfgs : list IntegrationConfig) (stored acc : list IntegrationConfigLogSource.t) :
  Forall2 (fun file cfg => parseFile ddconfdPath file = inl cfg) files cfgs ->
  Forall2 registered (concat (Logs <$> cfgs)) stored ->
  files_loop ddconfdPath files acc = Return (acc ++ stored, None).
Proof.
  intros Hparsed. revert stored acc.
  induction Hparsed as [|file cfg files cfgs Hparse _ IH]; intros stored acc Hreg.
  - apply Forall2_nil_inv_l in Hreg as ->. by rewrite app_nil_r.
  - rewrite fmap_cons in Hreg. cbn [concat] in Hreg.
    apply Forall2_app_inv_l in Hreg as (stored1 & stored2 & Hreg1 & Hreg2 & ->).
    rewrite files_loop_cons, Hparse, (sources_loop_all _ _ _ Hreg1). cbn [bind].
    by rewrite (IH _ _ Hreg2), <- app_assoc.
Qed.

Lemma sources_loop_panic (logs acc : list IntegrationConfigLogSource.t) :
  sources_loop logs acc = Panic ->
  exists before s after acc',
    logs = before ++ s :: after
    /\ sources_loop before acc = Return (acc', None)
    /\ sourcePanics s.
Proof.
  revert acc. induction logs as [|s logs IH]; intros acc Hloop; [discriminate Hloop|].
  change (s :: logs) with ([s] ++ logs) in Hloop.
  rewrite sources_loop_app in Hloop.
  destruct (sources_loop_one_inv s acc)
    as [(s' & Hreg & Hs)|[(e' & Hfail & Hs)|(Hpanic & Hs)]];
    rewrite Hs in Hloop; cbn [bind] in Hloop; try discriminate Hloop.
  - destruct (IH _ Hloop) as (before & s0 & after & acc' & -> & Hbefore & Hpanic).
    exists (s :: before), s0, after, acc'. split; [reflexivity|]. split; [|exact Hpanic].
    change (s :: before) with ([s] ++ before).
    rewrite sources_loop_app, Hs. exact Hbefore.
  - exists [], s, logs, acc. split; [reflexivity|]. split; [reflexivity | exact Hpanic].
Qed.

Lemma files_loop_panic (ddconfdPath : string) (files : list string)
    (acc : list IntegrationConfigLogSource.t) :
  files_loop ddconfdPath files acc = Panic ->
  exists before file after acc0,
    files = before ++ file :: after
    /\ files_loop ddconfdPath before acc = Return (acc0, None)
    /\ filePanics ddconfdPath file acc0.
Proof.
  revert acc. induction files as [|file files IH]; intros acc Hloop;
    [discriminate Hloop|].
  rewrite files_loop_cons in Hloop.
  destruct (parseFile ddconfdPath file) as [cfg|err] eqn:Hparse;
    [|discriminate Hloop].
  destruct (sources_loop (Logs cfg) acc) as [[acc1 [err|]]|] eqn:Hsources;
    cbn [bind] in Hloop; try discriminate Hloop.
  - destruct (IH _ Hloop) as (before & file0 & after & acc0 & -> & Hbefore & Hpanic).
    exists (file :: before), file0, after, acc0.
    split; [reflexivity|]. split; [|exact Hpanic].
    by rewrite files_loop_cons, Hparse, Hsources.
  - apply sources_loop_panic in Hsources as (sb & s & sa & acc' & Hlogs & Hsb & Hpanic).
    exists [], file, files, acc. split; [reflexivity|]. split; [reflexivity|].
    exists cfg, sb, s, sa, acc'. split; [|split; [|split]]; assumption.
Qed.

Lemma buildTagsPayload_nonempty (tags source sourceCategory : string) :
  buildTagsPayload tags source sourceCategory <> [].
Proof.
  rewrite buildTagsPayload_text.
  destruct (tagsText tags source sourceCategory); [|rewrite decide_False by discriminate];
    discriminate.
Qed.

Lemma registered_invariant (s s' : IntegrationConfigLogSource.t) :
  registered s s' -> storedInvariant s'.
Proof.
  intros (Hvalid & rules & Hrules & ->). unfold storedInvariant. cbn.
  split; [|split; [reflexivity|split]].
  - destruct (validateSource_cases s)
      as [(_ & Hv)|[(_ & _ & Hv)|[(_ & _ & Hv)|[(_ & _ & Hv)|(Hok & _)]]]];
      [rewrite Hv in Hvalid; discriminate Hvalid.. | exact Hok].
  - apply buildTagsPayload_nonempty.
  - apply validateProcessingRules_ok_inv in Hrules. by eapply checkRules_compiled.
Qed.
End LoadProperties.

Section LoadTheorems.
Context `{Env}.

(** X10. After a successful load the accessor returns the stored sources, and
    every one of them keeps the invariants of the data model: a valid type
    with its required path or port, a tags payload that is the one computed
    from its own tags, source and source category and is not empty, and
    rules that all hold their compiled pattern. *)
Theorem load_stores_valid_sources (LogsAgent LogsAgent' : viper.Viper) (ddconfdPath : string) :
  BuildLogsAgentIntegrationsConfigs LogsAgent ddconfdPath = Return (LogsAgent', None) ->
  exists stored,
    GetLogsSources LogsAgent' = Return stored /\ Forall storedInvariant stored.
Proof.
  unfold BuildLogsAgentIntegrationsConfigs, GetLogsSources.
  rewrite buildLogsAgentIntegrationsConfig_unfold. intros Hload.
  destruct (files_loop ddconfdPath (availableIntegrationConfigs ddconfdPath) [])
    as [[stored [err|]]|] eqn:Hloop; try discriminate Hload.
  injection Hload as <-. exists stored. split.
  - unfold getLogsSources, viper.Get, viper.Set_. by rewrite lookup_insert_eq.
  - apply files_loop_ok in Hloop as (cfgs & stored' & _ & -> & Hreg).
    cbn [app]. clear -Hreg.
    induction Hreg as [|s s' l l' Hone _ IH]; constructor;
      [by eapply registered_invariant | exact IH].
Qed.

(** X11. The load succeeds exactly when every discovered file parses and
    every source of every file is accepted: it is valid and its rules are
    all accepted. *)
Theorem load_succeeds_iff (config : viper.Viper) (ddconfdPath : string) :
  (exists config', buildLogsAgentIntegrationsConfig config ddconfdPath = Return (config', None))
  <-> exists cfgs,
        Forall2 (fun file cfg => parseFile ddconfdPath file = inl cfg)
                (availableIntegrationConfigs ddconfdPath) cfgs
        /\ Forall sourceAccepted (concat (Logs <$> cfgs)).
Proof.
  rewrite buildLogsAgentIntegrationsConfig_unfold. split.
  - intros (config' & Hload).
    destruct (files_loop ddconfdPath (availableIntegrationConfigs ddconfdPath) [])
      as [[stored [err|]]|] eqn:Hloop; try discriminate Hload.
    apply files_loop_ok in Hloop as (cfgs & stored' & Hparsed & _ & Hreg).
    exists cfgs. split; [exact Hparsed|].
    clear -Hreg. induction Hreg as [|s s' l l' Hone _ IH]; constructor;
      [by eapply registered_accepted | exact IH].
  - intros (cfgs & Hparsed & Hall).
    assert (exists stored, Forall2 registered (concat (Logs <$> cfgs)) stored)
      as (stored & Hreg).
    { clear -Hall. induction Hall as [|s l Hone _ (stored & IH)].
      - exists []. constructor.
      - destruct (accepted_registered s Hone) as (s' & Hs').
        exists (s' :: stored). by constructor. }
    rewrite (files_loop_all _ _ _ _ [] Hparsed Hreg). by eexists.
Qed.

(** X12. The load panics only on a pattern that does not compile: when the
    pattern of every rule of every source of every discovered file that
    parses compiles, the load returns. *)
Theorem load_returns_when_patterns_compile (config : viper.Viper) (ddconfdPath : string) :
  (forall file cfg s rule,
     file ∈ availableIntegrationConfigs ddconfdPath ->
     parseFile ddconfdPath file = inl cfg ->
     s ∈ Logs cfg ->
     rule ∈ IntegrationConfigLogSource.ProcessingRules s ->
     exists re, Compile (LogsProcessingRule.Pattern rule) = inl re) ->
  exists config' r, buildLogsAgentIntegrationsConfig config ddconfdPath = Return (config', r).
Proof.
  intros Hcompile. rewrite buildLogsAgentIntegrationsConfig_unfold.
  destruct (files_loop ddconfdPath (availableIntegrationConfigs ddconfdPath) [])
    as [[stored [err|]]|] eqn:Hloop; [by eexists _, _.. |].
  exfalso.
  apply files_loop_panic in Hloop
    as (fb & file & fa & acc0 & Hfiles & _
        & cfg & sb & s & sa & acc' & Hparse & Hlogs & _ & _ & Hpanic).
  rewrite validateProcessingRules_checkRules in Hpanic.
  destruct (checkRules_cases (IntegrationConfigLogSource.ProcessingRules s))
    as [(_ & ? & Hr)|[(? & ? & ? & _ & _ & _ & Hr)
                     |(before & rule & after & Hrules & _ & (_ & _ & e & He) & _)]];
    [rewrite Hr in Hpanic; discriminate Hpanic.. |].
  destruct (Hcompile file cfg s rule) as (re & Hre); [| exact Hparse | | | congruence].
  - rewrite Hfiles. apply elem_of_app. right. by left.
  - rewrite Hlogs. apply elem_of_app. right. by left.
  - rewrite Hrules. apply elem_of_app. right. by left.
Qed.

(** X14. The last load wins: after a load that returns, a second load that
    succeeds leaves the store that it would leave without the first, and a
    second load that fails leaves the accessor with what the first left. *)
Theorem load_after_load
    (config config1 config2 : viper.Viper) (path1 path2 : string) (r1 r2 : option error) :
  buildLogsAgentIntegrationsConfig config path1 = Return (config1, r1) ->
  buildLogsAgentIntegrationsConfig config1 path2 = Return (config2, r2) ->
  (r2 = None -> buildLogsAgentIntegrationsConfig config path2 = Return (config2, None))
  /\ (forall e, r2 = Some e -> getLogsSources config2 = getLogsSources config1).
Proof.
  rewrite !buildLogsAgentIntegrationsConfig_unfold. intros Hfirst Hsecond.
  destruct (files_loop path1 (availableIntegrationConfigs path1) [])
    as [[stored1 [err1|]]|]; try discriminate Hfirst; injection Hfirst as <- <-;
    destruct (files_loop path2 (availableIntegrationConfigs path2) [])
      as [[stored2 [err2|]]|]; try discriminate Hsecond; injection Hsecond as <- <-;
    (split; [intros Hr; try discriminate Hr | intros e He; try discriminate He]);
    try reflexivity.
  unfold viper.Set_. by rewrite insert_insert_eq.
Qed.
End LoadTheorems.

(** ** The further properties on the concrete environment *)

Ltac evaluated Hin :=
  match type of Hin with
  | _ ∈ ?l => let l' := eval vm_compute in l in change l with l' in Hin
  end.

Ltac members :=
  repeat match goal with
    | Hin : _ ∈ _ :: _ |- _ => apply elem_of_cons in Hin as [->|Hin]
    | Hin : _ ∈ [] |- _ => by apply elem_of_nil in Hin
    end.

Lemma validateProcessingRules_offender_behind_malformed_pattern_witness :
  validateProcessingRules (H := Fixture.env) [Fixture.broken; Fixture.unnamed] = Panic
  /\ forall rules' e,
       validateProcessingRules (H := Fixture.env) [Fixture.broken; Fixture.unnamed]
       <> Return (rules', Some e).
Proof.
  apply (validateProcessingRules_offender_behind_malformed_pattern (H := Fixture.env)
           [] [] [] Fixture.broken Fixture.unnamed).
  - constructor.
  - split; [discriminate|]. split; [by left | by eexists].
  - by left.
Defined.

Lemma validateProcessingRules_compiles_patterns_witness :
  Forall (ruleCompiled (H := Fixture.env)) Fixture.validated.
Proof.
  apply (validateProcessingRules_compiles_patterns (H := Fixture.env)
           [Fixture.dropDebug; Fixture.maskCards]).
  reflexivity.
Defined.

Lemma validateProcessingRules_idempotent_witness :
  validateProcessingRules (H := Fixture.env) Fixture.validated
  = Return (Fixture.validated, None).
Proof.
  apply (validateProcessingRules_idempotent (H := Fixture.env)
           [Fixture.dropDebug; Fixture.maskCards]).
  reflexivity.
Defined.

Lemma buildTagsPayload_copies_values_witness :
  buildTagsPayload "env:prod"
    ("nginx" +:+ dquote +:+ "][dd ddsourcecategory=" +:+ dquote +:+ "webserver") ""
  = buildTagsPayload "env:prod" "nginx" "webserver".
Proof. apply buildTagsPayload_copies_values; discriminate. Defined.

Lemma availableIntegrationConfigs_NoDup_witness :
  NoDup (availableIntegrationConfigs (H := Fixture.env) Fixture.confd).
Proof.
  apply (availableIntegrationConfigs_NoDup (H := Fixture.env)).
  apply (bool_decide_unpack _). vm_compute. exact I.
Defined.

Lemma load_stores_valid_sources_witness :
  exists stored,
    GetLogsSources (viper.Set_ LOGS_RULES (viper.Sources Fixture.stored) ∅) = Return stored
    /\ Forall (storedInvariant (H := Fixture.env)) stored.
Proof.
  apply (load_stores_valid_sources (H := Fixture.env) ∅ _ Fixture.confd).
  vm_compute. reflexivity.
Defined.

Lemma load_returns_when_patterns_compile_witness :
  exists config' r,
    buildLogsAgentIntegrationsConfig (H := Fixture.env) ∅ Fixture.confd
    = Return (config', r).
Proof.
  apply (load_returns_when_patterns_compile (H := Fixture.env)).
  intros file cfg s rule Hfile Hparse Hs Hrule.
  evaluated Hfile; members; vm_compute in Hparse; injection Hparse as <-;
    evaluated Hs; members; evaluated Hrule; members; by eexists.
Defined.

Lemma load_after_load_witness :
  buildLogsAgentIntegrationsConfig (H := Fixture.env) ∅ Fixture.missing
  = Return (viper.Set_ LOGS_RULES (viper.Sources [])
              (viper.Set_ LOGS_RULES (viper.Sources Fixture.stored) ∅), None).
Proof.
  apply (load_after_load (H := Fixture.env) ∅
           (viper.Set_ LOGS_RULES (viper.Sources Fixture.stored) ∅) _
           Fixture.confd Fixture.missing None None);
    [vm_compute; reflexivity | vm_compute; reflexivity | reflexivity].
Defined.
